(** * The Minesweeper knowledge base of [Week1/minesweeper/minesweeper.py]

    A shallow embedding of the classes [Sentence] and [MinesweeperAI] and
    the properties of the inference engine that hold, or fail, on them.

    Python sets are modelled by [gset]; the order in which a [for] loop
    visits a set is not fixed by the language, so every definition that
    iterates over a set takes the enumeration [set_iter] as a parameter and
    the general theorems hold for every enumeration that lists exactly the
    members of the set.  Integers are [Z]; lists are lists, updated by
    index where the source mutates an object it holds a reference to.
    [check_knowledge] is recursive and is given fuel for the depth of its
    calls; that it never runs out is proved below.  The recursion limit of
    the interpreter is left out. *)

From stdpp Require Import gmap list sets.
From Stdlib Require Import ZArith Lia.

#[local] Open Scope Z_scope.
#[local] Set Warnings "-clear-no-such-hyp".

(** ** Values held by the sets

    [return_neighbors] starts from [set(cell)], the set of the two
    coordinates of the cell, and then adds pairs: the sets of the program
    hold plain integers next to 2-tuples. *)

Inductive elem : Type :=
  | EInt (n : Z)
  | ECell (r c : Z).

#[global] Instance elem_eq_dec : EqDecision elem.
Proof. solve_decision. Defined.

Definition elem_to_sum (e : elem) : Z + Z * Z :=
  match e with EInt n => inl n | ECell r c => inr (r, c) end.

Definition elem_of_sum (s : Z + Z * Z) : elem :=
  match s with inl n => EInt n | inr (r, c) => ECell r c end.

#[global] Instance elem_countable : Countable elem.
Proof.
  refine (inj_countable' elem_to_sum elem_of_sum _).
  by intros [].
Defined.

(** A board cell as the callers pass it: the tuple [(row, col)]. *)
Definition cell_elem (cell : Z * Z) : elem := ECell cell.1 cell.2.

(** [range(n)] *)
Definition range (n : Z) : list Z := Z.of_nat <$> seq 0 (Z.to_nat n).

(** A [for] loop whose body may fail to return (it calls a function that
    is modelled with fuel). *)
Fixpoint for_each {S A : Type} (body : S → A → option S) (s : S) (l : list A)
  : option S :=
  match l with
  | [] => Some s
  | x :: l' =>
      match body s x with
      | Some s' => for_each body s' l'
      | None => None
      end
  end.

(** ** class Sentence *)

Module Sentence.

Record t : Type := mk { cells : gset elem; count : Z }.

#[global] Instance eq_dec : EqDecision t.
Proof. solve_decision. Defined.

(** [known_mines] and [known_safes] return the set or [None]. *)
Definition known_mines (self : t) : option (gset elem) :=
  if decide (count self = Z.of_nat (size (cells self)))
  then Some (cells self) else None.

Definition known_safes (self : t) : option (gset elem) :=
  if decide (count self = 0) then Some (cells self) else None.

Definition mark_mine (self : t) (cell : elem) : t :=
  if decide (cell ∈ cells self)
  then mk (cells self ∖ {[cell]}) (count self - 1)
  else self.

Definition mark_safe (self : t) (cell : elem) : t :=
  if decide (cell ∈ cells self)
  then mk (cells self ∖ {[cell]}) (count self)
  else self.

End Sentence.

(** Truth value of what [known_mines] and [known_safes] return, as tested
    by [if mines:] — [None] and the empty set are false. *)
Definition truthy (o : option (gset elem)) : bool :=
  match o with
  | Some X => bool_decide (X ≠ ∅)
  | None => false
  end.

(** ** class MinesweeperAI *)

Record MinesweeperAI : Type := mkAI {
  height : Z;
  width : Z;
  moves_made : gset elem;
  mines : gset elem;
  safes : gset elem;
  knowledge : list Sentence.t
}.

#[global] Instance MinesweeperAI_eq_dec : EqDecision MinesweeperAI.
Proof. solve_decision. Defined.

(** [__init__] *)
Definition init (height width : Z) : MinesweeperAI :=
  mkAI height width ∅ ∅ ∅ [].

Definition set_knowledge (self : MinesweeperAI) (k : list Sentence.t)
  : MinesweeperAI :=
  mkAI (height self) (width self) (moves_made self) (mines self) (safes self) k.

Definition mark_mine (self : MinesweeperAI) (cell : elem) : MinesweeperAI :=
  mkAI (height self) (width self) (moves_made self)
       ({[cell]} ∪ mines self) (safes self)
       ((λ sentence, Sentence.mark_mine sentence cell) <$> knowledge self).

Definition mark_safe (self : MinesweeperAI) (cell : elem) : MinesweeperAI :=
  mkAI (height self) (width self) (moves_made self)
       (mines self) ({[cell]} ∪ safes self)
       ((λ sentence, Sentence.mark_safe sentence cell) <$> knowledge self).

Definition return_neighbors (self : MinesweeperAI) (cell : Z * Z) : gset elem :=
  let neighbors : gset elem := {[EInt cell.1; EInt cell.2]} in
  foldl (λ neighbors rows,
    foldl (λ neighbors cols,
      if decide (Z.abs (cell.1 - rows) <= 1 ∧ Z.abs (cell.2 - cols) <= 1
                 ∧ (rows, cols) ≠ cell)
      then {[ECell rows cols]} ∪ neighbors
      else neighbors) neighbors (range (width self)))
    neighbors (range (height self)).

(** [self.knowledge.remove(sentence)] with the [ValueError] swallowed: the
    first sentence equal to [sentence] goes, if there is one. *)
Fixpoint list_remove (sentence : Sentence.t) (l : list Sentence.t)
  : list Sentence.t :=
  match l with
  | [] => []
  | s :: l' => if decide (s = sentence) then l' else s :: list_remove sentence l'
  end.

Section Iteration.

(** The order in which [for x in some_set] visits the set. *)
Variable set_iter : gset elem → list elem.

(** *** add_knowledge, up to the new sentence *)

(** The loop over [neighboring_cells]; the test of line 217 is
    [(cl not in self.mines) or self.safes]. *)
Definition new_sentence (self : MinesweeperAI) (cell : Z * Z) (count : Z)
  : Sentence.t :=
  let neighboring_cells := return_neighbors self cell in
  let '(new_cells, cont_deepcpy) :=
    foldl (λ '(new_cells, cont_deepcpy) cl,
      let cont_deepcpy :=
        if decide (cl ∈ mines self) then cont_deepcpy - 1 else cont_deepcpy in
      let new_cells : gset elem :=
        if bool_decide (cl ∉ mines self) || bool_decide (safes self ≠ ∅)
        then {[cl]} ∪ new_cells else new_cells in
      (new_cells, cont_deepcpy))
    (∅, count) (set_iter neighboring_cells) in
  Sentence.mk new_cells cont_deepcpy.

(** *** check_knowledge

    The function calls itself after every single mark.  The body is
    written over the recursive call [recur]; the state of the loops is
    the knowledge base together with the number of sweeps (invocations
    of [check_knowledge]) completed so far. *)

Section Body.
Variable recur : MinesweeperAI → option (MinesweeperAI * nat).

(** [self.mark_mine(mn); self.check_knowledge()] and its twin. *)
Definition mark_and_recheck (mark : MinesweeperAI → elem → MinesweeperAI)
    (acc : MinesweeperAI * nat) (c : elem) : option (MinesweeperAI * nat) :=
  match recur (mark acc.1 c) with
  | Some (self, sweeps) => Some (self, (acc.2 + sweeps)%nat)
  | None => None
  end.

(** One turn of [for sentence in knowledge_cpy]; [sentence] belongs to
    the deep copy, the marks change [self.knowledge] only. *)
Definition sweep_sentence (acc : MinesweeperAI * nat) (sentence : Sentence.t)
  : option (MinesweeperAI * nat) :=
  let acc :=
    if decide (size (Sentence.cells sentence) = 0%nat)
    then (set_knowledge acc.1 (list_remove sentence (knowledge acc.1)), acc.2)
    else acc in
  let mines := Sentence.known_mines sentence in
  let safes := Sentence.known_safes sentence in
  match
    (if truthy mines
     then for_each (mark_and_recheck mark_mine) acc
                   (set_iter (default ∅ mines))
     else Some acc)
  with
  | Some acc =>
      if truthy safes
      then for_each (mark_and_recheck mark_safe) acc
                    (set_iter (default ∅ safes))
      else Some acc
  | None => None
  end.

Definition check_knowledge_body (self : MinesweeperAI)
  : option (MinesweeperAI * nat) :=
  let knowledge_cpy := knowledge self in
  match for_each sweep_sentence (self, 0%nat) knowledge_cpy with
  | Some (self, sweeps) => Some (self, S sweeps)
  | None => None
  end.
End Body.

(** [fuel] bounds the nesting depth of the calls. *)
Fixpoint check_knowledge_fuel (fuel : nat) (self : MinesweeperAI)
  : option (MinesweeperAI * nat) :=
  match fuel with
  | O => None
  | S fuel' => check_knowledge_body (check_knowledge_fuel fuel') self
  end.

(** The values that still occur in some sentence. *)
Definition pending (self : MinesweeperAI) : gset elem :=
  ⋃ (Sentence.cells <$> knowledge self).

(** The calls nest at most one deeper than there are pending values
    ([check_knowledge_fuel_enough] below), which is the fuel given here. *)
Definition check_knowledge_sweeps (self : MinesweeperAI)
  : option (MinesweeperAI * nat) :=
  check_knowledge_fuel (S (size (pending self))) self.

Definition check_knowledge (self : MinesweeperAI) : option MinesweeperAI :=
  fst <$> check_knowledge_sweeps self.

(** *** inference

    [sentence1] and [sentence2] are references into [self.knowledge]:
    the loops are over the positions of the list, and line 258 writes
    [sentence1.count] into the sentence at the second position. *)

Definition set_count (self : MinesweeperAI) (j : nat) (n : Z) : MinesweeperAI :=
  set_knowledge self
    (alter (λ s, Sentence.mk (Sentence.cells s) n) j (knowledge self)).

Definition inference_pair (self : MinesweeperAI) (i j : nat) : MinesweeperAI :=
  match knowledge self !! i, knowledge self !! j with
  | Some sentence1, Some sentence2 =>
      if decide (Sentence.cells sentence1 ⊆ Sentence.cells sentence2) then
        let new_cells := Sentence.cells sentence2 ∖ Sentence.cells sentence1 in
        let new_count := Sentence.count sentence1 in
        let self := set_count self j new_count in
        let new_sentence := Sentence.mk new_cells new_count in
        let mines := Sentence.known_mines new_sentence in
        let safes := Sentence.known_safes new_sentence in
        let self :=
          if truthy mines
          then foldl mark_mine self (set_iter (default ∅ mines)) else self in
        if truthy safes
        then foldl mark_safe self (set_iter (default ∅ safes)) else self
      else self
  | _, _ => self
  end.

Definition inference (self : MinesweeperAI) : MinesweeperAI :=
  let positions := seq 0 (length (knowledge self)) in
  foldl (λ self i, foldl (λ self j, inference_pair self i j) self positions)
        self positions.

(** *** add_knowledge *)

(** Lines 203 to 206: the move is recorded and the cell marked safe. *)
Definition record_move (self : MinesweeperAI) (cell : Z * Z) : MinesweeperAI :=
  let self :=
    mkAI (height self) (width self) ({[cell_elem cell]} ∪ moves_made self)
         (mines self) (safes self) (knowledge self) in
  mark_safe self (cell_elem cell).

(** Lines 209 to 224: the sentence is built and, unless it has no cells,
    appended. *)
Definition store_sentence (self : MinesweeperAI) (cell : Z * Z) (count : Z)
  : MinesweeperAI :=
  let self := record_move self cell in
  let new_sentence := new_sentence self cell count in
  if decide (0 < size (Sentence.cells new_sentence))%nat
  then set_knowledge self (knowledge self ++ [new_sentence])
  else self.

Definition add_knowledge (self : MinesweeperAI) (cell : Z * Z) (count : Z)
  : option MinesweeperAI :=
  match check_knowledge (store_sentence self cell count) with
  | Some self => Some (inference self)
  | None => None
  end.

(** The pass that [add_knowledge] runs after it has stored the sentence. *)
Definition inference_pass (self : MinesweeperAI) : option MinesweeperAI :=
  inference <$> check_knowledge self.

(** *** make_safe_move *)

(** The loop returns the first value that passes
    [isinstance(cell, tuple) and len(cell) == 2]. *)
Fixpoint first_cell (l : list elem) : option (Z * Z) :=
  match l with
  | [] => None
  | ECell r c :: _ => Some (r, c)
  | EInt _ :: l' => first_cell l'
  end.

Definition make_safe_move (self : MinesweeperAI) : option (Z * Z) :=
  first_cell (set_iter (safes self ∖ moves_made self)).

(** *** The public operations, in sequence *)

Inductive op : Type :=
  | Observe (cell : Z * Z) (count : Z)
  | MarkSafe (cell : Z * Z)
  | MarkMine (cell : Z * Z).

Definition run_op (self : MinesweeperAI) (o : op) : option MinesweeperAI :=
  match o with
  | Observe cell count => add_knowledge self cell count
  | MarkSafe cell => Some (mark_safe self (cell_elem cell))
  | MarkMine cell => Some (mark_mine self (cell_elem cell))
  end.

Definition run (self : MinesweeperAI) (ops : list op) : option MinesweeperAI :=
  for_each run_op self ops.

End Iteration.

(** *** make_random_move

    [randrange draw n] is the value of the [draw]-th call of
    [random.randrange], made with argument [n]; the call raises
    [ValueError] unless [0 < n]. *)

Inductive outcome : Type :=
  | Raised
  | Returned (move : option (Z * Z)).

Section Random.

Variable randrange : nat → Z → Z.

Definition py_randrange (draw : nat) (n : Z) : option Z :=
  if decide (0 < n) then Some (randrange draw n) else None.

(** The loop [while max_moves > 0]; the second component counts the
    attempts made. *)
Fixpoint make_random_move_loop (self : MinesweeperAI) (max_moves draw : nat)
  : outcome * nat :=
  match max_moves with
  | O => (Returned None, 0%nat)
  | S max_moves' =>
      match py_randrange draw (height self) with
      | None => (Raised, 1%nat)
      | Some rand_row =>
          match py_randrange (S draw) (width self) with
          | None => (Raised, 1%nat)
          | Some rand_col =>
              let move := ECell rand_row rand_col in
              if decide ((move ∉ moves_made self) ∧ (move ∉ mines self))
              then (Returned (Some (rand_row, rand_col)), 1%nat)
              else
                let '(o, n) :=
                  make_random_move_loop self max_moves' (S (S draw)) in
                (o, S n)
          end
      end
  end.

Definition make_random_move (self : MinesweeperAI) (draw : nat)
  : outcome * nat :=
  make_random_move_loop self (Z.to_nat (width self * height self)) draw.

End Random.

(** ** class Minesweeper *)

(** The position that a Python list gives to the index [i]: a negative
    index counts from the end, and one out of range raises [IndexError]
    ([None] here). *)
Definition py_position {A : Type} (l : list A) (i : Z) : option nat :=
  if decide (0 <= i < Z.of_nat (length l)) then Some (Z.to_nat i)
  else if decide (- Z.of_nat (length l) <= i < 0)
       then Some (Z.to_nat (Z.of_nat (length l) + i))
       else None.

(** [l[i]] *)
Definition py_index {A : Type} (l : list A) (i : Z) : option A :=
  match py_position l i with
  | Some p => l !! p
  | None => None
  end.

(** [range(a, b)] *)
Definition range_from (a b : Z) : list Z :=
  (λ k, a + Z.of_nat k) <$> seq 0 (Z.to_nat (b - a)).

Inductive exn : Type :=
  | ValueError
  | IndexError.

Inductive result (A : Type) : Type :=
  | Raise (e : exn)
  | Return (a : A).

Arguments Raise {A} e.
Arguments Return {A} a.

Module Minesweeper.

Record t : Type := mk {
  height : Z;
  width : Z;
  mines : gset (Z * Z);
  board : list (list bool);
  mines_found : gset (Z * Z)
}.

(** [self.board[i][j]] *)
Definition board_at (self : t) (i j : Z) : option bool :=
  match py_index (board self) i with
  | Some row => py_index row j
  | None => None
  end.

(** [self.board[i][j] = True] *)
Definition board_store (self : t) (i j : Z) : option (list (list bool)) :=
  match py_position (board self) i with
  | Some p =>
      match board self !! p with
      | Some row =>
          match py_position row j with
          | Some q => Some (<[p := <[q := true]> row]> (board self))
          | None => None
          end
      | None => None
      end
  | None => None
  end.

Definition is_mine (self : t) (cell : Z * Z) : option bool :=
  board_at self cell.1 cell.2.

(** The body of the inner loop of [nearby_mines]. *)
Definition count_cell (self : t) (cell : Z * Z) (i : Z) (count j : Z)
  : option Z :=
  if decide ((i, j) = cell) then Some count
  else if decide (0 <= i < height self ∧ 0 <= j < width self)
       then match board_at self i j with
            | Some true => Some (count + 1)
            | Some false => Some count
            | None => None
            end
       else Some count.

Definition nearby_mines (self : t) (cell : Z * Z) : option Z :=
  for_each (λ count i,
      for_each (count_cell self cell i) count
               (range_from (cell.2 - 1) (cell.2 + 2)))
    0 (range_from (cell.1 - 1) (cell.1 + 2)).

Definition won (self : t) : bool :=
  bool_decide (mines_found self = mines self).

(** The board of [__init__] before any mine is placed. *)
Definition empty_board (height width : Z) : list (list bool) :=
  (λ _, (λ _, false) <$> range width) <$> range height.

Section Init.
Variable randrange : nat → Z → Z.

(** The loop [while len(self.mines) != mines] of [__init__]; it has no
    bound of its own, [fuel] counts its turns.  [None] is a run that has
    not ended within the fuel. *)
Fixpoint place_mines (fuel : nat) (self : t) (mines : Z) (draw : nat)
  : option (result t) :=
  match fuel with
  | O => None
  | S fuel' =>
      if decide (Z.of_nat (size (Minesweeper.mines self)) ≠ mines) then
        match py_randrange randrange draw (height self) with
        | None => Some (Raise ValueError)
        | Some i =>
            match py_randrange randrange (S draw) (width self) with
            | None => Some (Raise ValueError)
            | Some j =>
                match board_at self i j with
                | None => Some (Raise IndexError)
                | Some true => place_mines fuel' self mines (S (S draw))
                | Some false =>
                    match board_store self i j with
                    | None => Some (Raise IndexError)
                    | Some b =>
                        place_mines fuel'
                          (mk (height self) (width self)
                              ({[(i, j)]} ∪ Minesweeper.mines self) b
                              (mines_found self))
                          mines (S (S draw))
                    end
                end
            end
        end
      else Some (Return self)
  end.

(** [__init__]; [mines_found] is set when the loop has ended and is not
    read before. *)
Definition init (height width mines : Z) (fuel draw : nat)
  : option (result t) :=
  place_mines fuel (mk height width ∅ (empty_board height width) ∅) mines draw.

End Init.

End Minesweeper.

(** * Vocabulary of the properties *)

(** No sweep brings a value back into a sentence. *)
Definition shrinks : relation MinesweeperAI :=
  λ st st', pending st' ⊆ pending st.

(** [safes] and [mines] of the second state contain those of the first. *)
Definition grows : relation MinesweeperAI :=
  λ st st', safes st ⊆ safes st' ∧ mines st ⊆ mines st'.

(** The two states hold the same number of sentences. *)
Definition same_length : relation MinesweeperAI :=
  λ st st', length (knowledge st') = length (knowledge st).

(** A sentence on which a sweep does nothing: it has cells, and neither
    [known_mines] nor [known_safes] gives a conclusion. *)
Definition settled (s : Sentence.t) : Prop :=
  Sentence.cells s ≠ ∅
  ∧ truthy (Sentence.known_mines s) = false
  ∧ truthy (Sentence.known_safes s) = false.

Definition stable (st : MinesweeperAI) : Prop := Forall settled (knowledge st).

(** The pairs that the double loop of [return_neighbors] adds. *)
Definition adjacent (st : MinesweeperAI) (cell : Z * Z) (rows cols : Z) : Prop :=
  0 <= rows < height st ∧ 0 <= cols < width st
  ∧ Z.abs (cell.1 - rows) <= 1 ∧ Z.abs (cell.2 - cols) <= 1
  ∧ (rows, cols) ≠ cell.

(** A cell that [make_random_move] may return. *)
Definition eligible (st : MinesweeperAI) (r c : Z) : Prop :=
  0 <= r < height st ∧ 0 <= c < width st
  ∧ (ECell r c ∉ moves_made st) ∧ (ECell r c ∉ mines st).

(** The three invariants of the knowledge base: a sentence's count lies
    between 0 and the number of its cells, none of its cells is known, and
    no cell is known both ways. *)
Definition count_in_range (s : Sentence.t) : Prop :=
  0 <= Sentence.count s <= Z.of_nat (size (Sentence.cells s)).

Definition unknown_cells (st : MinesweeperAI) (s : Sentence.t) : Prop :=
  Sentence.cells s ## safes st ∪ mines st.

Definition kb_invariant (st : MinesweeperAI) : Prop :=
  safes st ## mines st
  ∧ Forall count_in_range (knowledge st)
  ∧ Forall (unknown_cells st) (knowledge st).

#[global] Instance kb_invariant_dec st : Decision (kb_invariant st).
Proof. unfold kb_invariant, count_in_range, unknown_cells. apply _. Defined.

(** A sentence is true of a set [M] of mines when its count is the number
    of its cells that are in [M]. *)
Definition true_of (M : gset elem) (s : Sentence.t) : Prop :=
  Sentence.count s = Z.of_nat (size (Sentence.cells s ∩ M)).

(** The knowledge base says nothing false about [M]: the known mines are
    in [M], the known safe cells are not, and every sentence is true. *)
Definition sound (M : gset elem) (st : MinesweeperAI) : Prop :=
  mines st ⊆ M ∧ safes st ## M ∧ Forall (true_of M) (knowledge st).

(** The second state has the board and the moves of the first. *)
Definition same_frame : relation MinesweeperAI :=
  λ st st', height st' = height st ∧ width st' = width st
            ∧ moves_made st' = moves_made st.

(** The second state holds no more sentences than the first. *)
Definition not_longer : relation MinesweeperAI :=
  λ st st', (length (knowledge st') ≤ length (knowledge st))%nat.

(** [grows], on the states of the loops of the sweep. *)
Definition grows_acc : relation (MinesweeperAI * nat) :=
  λ a a', grows a.1 a'.1.

(** Every sentence is at its place and has lost cells at most. *)
Definition same_sentences : relation MinesweeperAI :=
  λ st st', Forall2 (λ s s', Sentence.cells s' ⊆ Sentence.cells s)
                    (knowledge st) (knowledge st').

(** The state of a game as [__init__] builds it: the board has [height]
    rows of [width] squares, [mines] holds positions of the board only,
    and a square is [True] exactly when its position is in [mines]. *)
Definition well_formed (g : Minesweeper.t) : Prop :=
  length (Minesweeper.board g) = Z.to_nat (Minesweeper.height g)
  ∧ Forall (λ row, length row = Z.to_nat (Minesweeper.width g))
           (Minesweeper.board g)
  ∧ (∀ i j, (i, j) ∈ Minesweeper.mines g →
            0 <= i < Minesweeper.height g ∧ 0 <= j < Minesweeper.width g)
  ∧ (∀ i j, 0 <= i < Minesweeper.height g → 0 <= j < Minesweeper.width g →
            Minesweeper.board_at g i j
            = Some (bool_decide ((i, j) ∈ Minesweeper.mines g))).

(** The position [p] is within one row and one column of [cell] and is
    not [cell]. *)
Definition near (cell p : Z * Z) : Prop :=
  Z.abs (cell.1 - p.1) <= 1 ∧ Z.abs (cell.2 - p.2) <= 1 ∧ p ≠ cell.

#[global] Instance near_dec cell p : Decision (near cell p).
Proof. unfold near. apply _. Defined.

(** The mines of a game, as values of the sets of the player. *)
Definition mine_elems (g : Minesweeper.t) : gset elem :=
  set_map cell_elem (Minesweeper.mines g).

#[global] Instance sound_dec M st : Decision (sound M st).
Proof. unfold sound, true_of. apply _. Defined.

(** * States and inputs of the examples *)

(** Cells used in the examples. *)
Definition cell_A : elem := ECell 0 0.
Definition cell_B : elem := ECell 0 1.
Definition cell_C : elem := ECell 0 2.
Definition cell_D : elem := ECell 1 0.

(** The knowledge base [{A,B,C} = 1], [{A,B} = 1]. *)
Definition kb_subset_rule : MinesweeperAI :=
  mkAI 3 3 ∅ ∅ ∅
    [Sentence.mk {[cell_A; cell_B; cell_C]} 1; Sentence.mk {[cell_A; cell_B]} 1].

(** The knowledge base [{A,B,C,D} = 2], [{A,B} = 1]. *)
Definition kb_derive : MinesweeperAI :=
  mkAI 3 3 ∅ ∅ ∅
    [Sentence.mk {[cell_A; cell_B; cell_C; cell_D]} 2;
     Sentence.mk {[cell_A; cell_B]} 1].

(** A 3 x 3 board on which [(0, 0)] is a known mine and [(0, 1)] is known
    to be safe. *)
Definition kb_known : MinesweeperAI :=
  mark_safe (mark_mine (init 3 3) cell_A) cell_B.

(** The knowledge base [{A,B} = 1]. *)
Definition kb_one_of_two : MinesweeperAI :=
  mkAI 3 3 ∅ ∅ ∅ [Sentence.mk {[cell_A; cell_B]} 1].

(** Four times the same observation on a 1 x 2 board, then the mine. *)
Definition ops_repeated : list op :=
  [Observe (0, 0) 1; Observe (0, 0) 1; Observe (0, 0) 1; Observe (0, 0) 1;
   MarkMine (0, 1)].

(** The knowledge base [{A,B,C} = 2], [{A,B} = 1], [{C,D} = 1]. *)
Definition kb_chain : MinesweeperAI :=
  mkAI 3 3 ∅ ∅ ∅
    [Sentence.mk {[cell_A; cell_B; cell_C]} 2;
     Sentence.mk {[cell_A; cell_B]} 1;
     Sentence.mk {[cell_C; cell_D]} 1].

(** The knowledge base [{A,B} = 2], [{B,C,D} = 2]: the first sentence
    says that A and B are mines, and once B is marked the second turns
    into [{C,D} = 1]. *)
Definition kb_all_mines : MinesweeperAI :=
  mkAI 3 3 ∅ ∅ ∅
    [Sentence.mk {[cell_A; cell_B]} 2;
     Sentence.mk {[cell_B; cell_C; cell_D]} 2].

(** A state with two safe cells, one of them played. *)
Definition kb_safe_moves : MinesweeperAI :=
  mkAI 3 3 {[cell_A]} ∅ {[cell_A; cell_B; EInt 0]} [].

(** A generator: the number of the draw, reduced into the range. *)
Definition counting_randrange (draw : nat) (n : Z) : Z := Z.of_nat draw `mod` n.

(** A 2 x 2 board with [(0, 1)] played. *)
Definition kb_played : MinesweeperAI := mkAI 2 2 {[cell_B]} ∅ {[cell_B]} [].

(** A generator that always draws 0. *)
Definition zero_randrange (draw : nat) (n : Z) : Z := 0.

(** A 2 x 2 board with [(0, 0)] played and three cells left. *)
Definition kb_corner_played : MinesweeperAI :=
  mkAI 2 2 {[cell_A]} ∅ {[cell_A]} [].

(** The set of mines [{A, B, C}] and a sentence that is true of it. *)
Definition mines_ABC : gset elem := {[cell_A; cell_B; cell_C]}.

Definition sentence_AB : Sentence.t := Sentence.mk {[cell_A; cell_B]} 2.

(** A 3 x 3 game with mines at [(0, 1)] and [(2, 0)], as [__init__]
    builds it from the draws of [counting_randrange]. *)
Definition game_example : Minesweeper.t :=
  Minesweeper.mk 3 3 {[(0, 1); (2, 0)]}
    [[false; true; false]; [false; false; false]; [true; false; false]] ∅.

(** A 3 x 3 board on which the mine at [(0, 1)] is known. *)
Definition kb_mine_known : MinesweeperAI := mark_mine (init 3 3) cell_B.

(** * Properties *)

(** ** Loops *)

Section ForEach.
Context {S A : Type} (body : S → A → option S).

Lemma for_each_ind (P : S → list A → Prop) :
  (∀ s x l s', P s (x :: l) → body s x = Some s' → P s' l) →
  ∀ l s s', P s l → for_each body s l = Some s' → P s' [].
Proof.
  intros Hstep l. induction l as [|x l IH]; intros s s' HP Hrun; simpl in Hrun.
  - by simplify_eq.
  - destruct (body s x) as [s1|] eqn:Hb; [|done]. eauto.
Qed.

Lemma for_each_inv (I : S → Prop) l :
  (∀ s x s', x ∈ l → I s → body s x = Some s' → I s') →
  ∀ s s', I s → for_each body s l = Some s' → I s'.
Proof.
  induction l as [|x l IH]; intros Hstep s s' HI Hrun; simpl in Hrun.
  - by simplify_eq.
  - destruct (body s x) as [s1|] eqn:Hb; [|done].
    eapply IH; [| |done].
    + intros ?????. eapply Hstep; [by right|done..].
    + eapply Hstep; [by left|done..].
Qed.

Lemma for_each_total (I : S → Prop) l :
  (∀ s x, x ∈ l → I s → ∃ s', body s x = Some s' ∧ I s') →
  ∀ s, I s → ∃ s', for_each body s l = Some s' ∧ I s'.
Proof.
  induction l as [|x l IH]; intros Hstep s HI; simpl.
  - eauto.
  - destruct (Hstep s x) as (s1 & -> & HI1); [by left|done|].
    apply IH; [|done]. intros ????. apply Hstep; [by right|done].
Qed.

(** A loop that runs at least once ends with a turn of its body. *)
Lemma for_each_last l s s' :
  l ≠ [] → for_each body s l = Some s' →
  ∃ s0 x, x ∈ l ∧ body s0 x = Some s'.
Proof.
  revert s. induction l as [|x l IH]; intros s Hne Hrun; [done|].
  simpl in Hrun. destruct (body s x) as [s1|] eqn:Hb; [|done].
  destruct l as [|y l].
  - simpl in Hrun. simplify_eq. exists s, x. split; [by left|done].
  - destruct (IH s1) as (s0 & z & Hz & Hbz); [done..|].
    exists s0, z. split; [by right|done].
Qed.
End ForEach.

Lemma for_each_mono {S A : Type} (body1 body2 : S → A → option S) l :
  (∀ s x r, body1 s x = Some r → body2 s x = Some r) →
  ∀ s r, for_each body1 s l = Some r → for_each body2 s l = Some r.
Proof.
  intros Hext. induction l as [|x l IH]; intros s r Hrun; simpl in *; [done|].
  destruct (body1 s x) as [s1|] eqn:Hb; [|done].
  rewrite (Hext _ _ _ Hb). eauto.
Qed.

(** ** Sentences *)

Lemma truthy_Some (o : option (gset elem)) :
  truthy o = true ↔ ∃ X, o = Some X ∧ X ≠ ∅.
Proof.
  destruct o as [X|]; simpl.
  - rewrite bool_decide_eq_true. naive_solver.
  - naive_solver.
Qed.

Lemma known_mines_Some s X :
  Sentence.known_mines s = Some X →
  X = Sentence.cells s ∧ Sentence.count s = Z.of_nat (size (Sentence.cells s)).
Proof. unfold Sentence.known_mines. case_decide; naive_solver. Qed.

Lemma known_safes_Some s X :
  Sentence.known_safes s = Some X →
  X = Sentence.cells s ∧ Sentence.count s = 0.
Proof. unfold Sentence.known_safes. case_decide; naive_solver. Qed.

Lemma cells_mark_mine s c :
  Sentence.cells (Sentence.mark_mine s c) = Sentence.cells s ∖ {[c]}.
Proof. unfold Sentence.mark_mine. case_decide; simpl; set_solver. Qed.

Lemma cells_mark_safe s c :
  Sentence.cells (Sentence.mark_safe s c) = Sentence.cells s ∖ {[c]}.
Proof. unfold Sentence.mark_safe. case_decide; simpl; set_solver. Qed.

Lemma count_mark_safe s c :
  Sentence.count (Sentence.mark_safe s c) = Sentence.count s.
Proof. unfold Sentence.mark_safe. by case_decide. Qed.

(** ** What is still pending *)

Lemma elem_of_pending st c :
  c ∈ pending st ↔ ∃ s, s ∈ knowledge st ∧ c ∈ Sentence.cells s.
Proof.
  unfold pending. rewrite elem_of_union_list. split.
  - intros (X & HX & Hc). apply list_elem_of_fmap in HX as (s & -> & Hs). eauto.
  - intros (s & Hs & Hc). exists (Sentence.cells s). split; [|done].
    apply list_elem_of_fmap. eauto.
Qed.

Lemma pending_mark_mine st c : pending (mark_mine st c) = pending st ∖ {[c]}.
Proof.
  apply set_eq. intros x. rewrite elem_of_difference, !elem_of_pending. simpl.
  split.
  - intros (s & Hs & Hx). apply list_elem_of_fmap in Hs as (s0 & -> & Hs0).
    rewrite cells_mark_mine in Hx. set_solver.
  - intros [(s & Hs & Hx) Hne]. exists (Sentence.mark_mine s c). split.
    + apply list_elem_of_fmap. eauto.
    + rewrite cells_mark_mine. set_solver.
Qed.

Lemma pending_mark_safe st c : pending (mark_safe st c) = pending st ∖ {[c]}.
Proof.
  apply set_eq. intros x. rewrite elem_of_difference, !elem_of_pending. simpl.
  split.
  - intros (s & Hs & Hx). apply list_elem_of_fmap in Hs as (s0 & -> & Hs0).
    rewrite cells_mark_safe in Hx. set_solver.
  - intros [(s & Hs & Hx) Hne]. exists (Sentence.mark_safe s c). split.
    + apply list_elem_of_fmap. eauto.
    + rewrite cells_mark_safe. set_solver.
Qed.

Lemma list_remove_subseteq s l : list_remove s l ⊆ l.
Proof.
  induction l as [|y l IH]; simpl; [done|].
  case_decide; set_solver.
Qed.

Lemma pending_remove st s :
  pending (set_knowledge st (list_remove s (knowledge st))) ⊆ pending st.
Proof.
  intros x. rewrite !elem_of_pending. simpl. intros (s0 & Hs0 & Hx).
  exists s0. split; [|done]. by apply (list_remove_subseteq s).
Qed.

(** ** The sweep: what it preserves, and that it returns *)

Section CheckKnowledge.
Variable set_iter : gset elem → list elem.

(** Whatever relation between the state before and the state after holds
    for the three mutations of the sweep (and composes) holds for
    [check_knowledge]. *)
Section Preserved.
Variable R : relation MinesweeperAI.
Context `{!PreOrder R}.
Hypothesis R_remove :
  ∀ st s, R st (set_knowledge st (list_remove s (knowledge st))).
Hypothesis R_mark_mine : ∀ st c, R st (mark_mine st c).
Hypothesis R_mark_safe : ∀ st c, R st (mark_safe st c).

Lemma marks_preserve recur mark (l : list elem) acc acc' :
  (∀ st r, recur st = Some r → R st r.1) →
  (∀ st c, R st (mark st c)) →
  for_each (mark_and_recheck recur mark) acc l = Some acc' →
  R acc.1 acc'.1.
Proof.
  intros Hrec Hmark Hrun.
  revert Hrun. apply (for_each_inv _ (λ a, R acc.1 a.1)); [|done].
  intros [st n] c [st' n'] _ HR Hstep. unfold mark_and_recheck in Hstep.
  simpl in *. destruct (recur (mark st c)) as [[st1 k]|] eqn:Hr; [|done].
  simplify_eq. apply Hrec in Hr. simpl in Hr.
  transitivity st; [done|]. transitivity (mark st c); [apply Hmark|done].
Qed.

Lemma sweep_sentence_preserves recur acc s acc' :
  (∀ st r, recur st = Some r → R st r.1) →
  sweep_sentence set_iter recur acc s = Some acc' → R acc.1 acc'.1.
Proof.
  intros Hrec. unfold sweep_sentence.
  set (acc0 := if decide (size (Sentence.cells s) = 0%nat) then _ else acc).
  assert (R acc.1 acc0.1) as H0.
  { subst acc0. case_decide; simpl; [apply R_remove|done]. }
  clearbody acc0.
  destruct (truthy (Sentence.known_mines s)).
  - destruct (for_each _ acc0 _) as [acc1|] eqn:H1; [|done].
    apply marks_preserve in H1; [|done..].
    destruct (truthy (Sentence.known_safes s)).
    + intros H2. apply marks_preserve in H2; [|done..]. by etrans; [|etrans].
    + intros [= <-]. by etrans.
  - destruct (truthy (Sentence.known_safes s)).
    + intros H2. apply marks_preserve in H2; [|done..]. by etrans.
    + by intros [= <-].
Qed.

Lemma check_knowledge_body_preserves recur st r :
  (∀ st r, recur st = Some r → R st r.1) →
  check_knowledge_body set_iter recur st = Some r → R st r.1.
Proof.
  intros Hrec. unfold check_knowledge_body.
  destruct (for_each _ _ _) as [[st' k]|] eqn:Hrun; [|done].
  intros [= <-]. simpl.
  revert Hrun. apply (for_each_inv _ (λ a, R st a.1)); [|done].
  intros acc s acc' _ HR Hstep.
  apply sweep_sentence_preserves in Hstep; [|done]. by etrans.
Qed.

Lemma check_knowledge_fuel_preserves fuel st r :
  check_knowledge_fuel set_iter fuel st = Some r → R st r.1.
Proof.
  revert st r. induction fuel as [|fuel IH]; intros st r; simpl; [done|].
  by apply check_knowledge_body_preserves.
Qed.
End Preserved.

#[local] Instance shrinks_preorder : PreOrder shrinks.
Proof. split; unfold shrinks; [intros ?|intros ???]; set_solver. Qed.

Lemma check_knowledge_fuel_shrinks fuel st r :
  check_knowledge_fuel set_iter fuel st = Some r → pending r.1 ⊆ pending st.
Proof.
  apply (check_knowledge_fuel_preserves shrinks); unfold shrinks.
  - apply pending_remove.
  - intros. rewrite pending_mark_mine. set_solver.
  - intros. rewrite pending_mark_safe. set_solver.
Qed.

(** More fuel changes nothing once the call has returned. *)
Lemma check_knowledge_body_mono recur1 recur2 st r :
  (∀ st r, recur1 st = Some r → recur2 st = Some r) →
  check_knowledge_body set_iter recur1 st = Some r →
  check_knowledge_body set_iter recur2 st = Some r.
Proof.
  intros Hext. unfold check_knowledge_body.
  destruct (for_each (sweep_sentence _ recur1) _ _) as [acc|] eqn:Hrun; [|done].
  intros Hr. erewrite for_each_mono; [exact Hr| |exact Hrun].
  clear -Hext. intros acc s acc'. unfold sweep_sentence.
  assert (∀ mark l a a',
    for_each (mark_and_recheck recur1 mark) a l = Some a' →
    for_each (mark_and_recheck recur2 mark) a l = Some a') as Hmarks.
  { intros mark l. apply for_each_mono. intros a c a'.
    unfold mark_and_recheck.
    destruct (recur1 _) as [p|] eqn:H1; [|done]. by rewrite (Hext _ _ H1). }
  destruct (truthy (Sentence.known_mines s)).
  - destruct (for_each (mark_and_recheck recur1 _) _ _) as [a1|] eqn:H1; [|done].
    rewrite (Hmarks _ _ _ _ H1).
    destruct (truthy (Sentence.known_safes s)); [apply Hmarks|done].
  - destruct (truthy (Sentence.known_safes s)); [apply Hmarks|done].
Qed.

Lemma check_knowledge_fuel_mono fuel fuel' st r :
  (fuel ≤ fuel')%nat →
  check_knowledge_fuel set_iter fuel st = Some r →
  check_knowledge_fuel set_iter fuel' st = Some r.
Proof.
  revert fuel' st r. induction fuel as [|fuel IH]; intros fuel' st r Hle; [done|].
  destruct fuel' as [|fuel']; [lia|]. simpl.
  apply check_knowledge_body_mono. intros ??. apply IH. lia.
Qed.

(** From here on the enumeration lists the members of the set. *)
Hypothesis set_iter_perm : ∀ X, set_iter X ≡ₚ elements X.

Lemma elem_of_set_iter X c : c ∈ set_iter X ↔ c ∈ X.
Proof. by rewrite set_iter_perm, elem_of_elements. Qed.

Lemma set_iter_nil X : set_iter X = [] ↔ X = ∅.
Proof.
  split.
  - intros Hnil. apply leibniz_equiv, elements_empty_inv.
    apply Permutation_nil. by rewrite <- set_iter_perm, Hnil.
  - intros ->. apply Permutation_nil. by rewrite set_iter_perm, elements_empty.
Qed.

(** Marking the members of a set of pending values, with a nested sweep
    after each, returns when the nested sweeps have fuel for one pending
    value less. *)
Lemma marks_return fuel mark (P : gset elem) (l : list elem) acc :
  (∀ st, (size (pending st) < fuel)%nat →
         is_Some (check_knowledge_fuel set_iter fuel st)) →
  (∀ st c, pending (mark st c) = pending st ∖ {[c]}) →
  (size P ≤ fuel)%nat →
  (∀ c, c ∈ l → c ∈ P) →
  pending acc.1 ⊆ P →
  ∃ acc', for_each (mark_and_recheck (check_knowledge_fuel set_iter fuel) mark)
                   acc l = Some acc'
          ∧ pending acc'.1 ⊆ P.
Proof.
  intros IH Hmark Hsize Hl Hacc.
  apply (for_each_total _ (λ a, pending a.1 ⊆ P)); [|done].
  intros [st n] c Hc Hst. simpl in *. unfold mark_and_recheck. simpl.
  destruct (IH (mark st c)) as [[st' k] Hret].
  { rewrite Hmark. apply Hl in Hc.
    assert (size (P ∖ {[c]}) < size P)%nat.
    { apply subset_size. set_solver. }
    assert (size (pending st ∖ {[c]}) ≤ size (P ∖ {[c]}))%nat.
    { apply subseteq_size. set_solver. }
    lia. }
  rewrite Hret. eexists; split; [done|]. simpl.
  apply check_knowledge_fuel_shrinks in Hret. simpl in Hret.
  rewrite Hmark in Hret. set_solver.
Qed.

Lemma check_knowledge_fuel_returns fuel st :
  (size (pending st) < fuel)%nat →
  is_Some (check_knowledge_fuel set_iter fuel st).
Proof.
  revert st. induction fuel as [|fuel IH]; intros st Hfuel; [lia|].
  simpl. unfold check_knowledge_body.
  destruct (for_each_total (sweep_sentence set_iter (check_knowledge_fuel set_iter fuel))
              (λ a, pending a.1 ⊆ pending st) (knowledge st)) with (s := (st, 0%nat))
    as ([st' k] & -> & _); [|done|done].
  intros acc s Hs Hacc. unfold sweep_sentence.
  set (acc0 := if decide (size (Sentence.cells s) = 0%nat) then _ else acc).
  assert (pending acc0.1 ⊆ pending st) as H0.
  { subst acc0. case_decide; simpl; [|done]. etrans; [apply pending_remove|done]. }
  clearbody acc0.
  assert (∀ c, c ∈ Sentence.cells s → c ∈ pending st) as Hcells.
  { intros c Hc. apply elem_of_pending. eauto. }
  assert (∀ mark o a,
    (∀ st c, pending (mark st c) = pending st ∖ {[c]}) →
    (o = Sentence.known_mines s ∨ o = Sentence.known_safes s) →
    pending a.1 ⊆ pending st →
    ∃ a', (if truthy o
           then for_each (mark_and_recheck (check_knowledge_fuel set_iter fuel) mark)
                         a (set_iter (default ∅ o))
           else Some a) = Some a'
          ∧ pending a'.1 ⊆ pending st) as Hmarks.
  { intros mark o a Hmark Ho Ha. destruct (truthy o) eqn:Ht; [|eauto].
    apply truthy_Some in Ht as (X & -> & _). simpl.
    apply (marks_return fuel mark (pending st)); [done|done|lia| |done].
    intros c Hc. apply elem_of_set_iter in Hc. apply Hcells.
    destruct Ho as [Ho|Ho]; symmetry in Ho;
      [apply known_mines_Some in Ho as [-> _]
      |apply known_safes_Some in Ho as [-> _]]; done. }
  destruct (Hmarks mark_mine (Sentence.known_mines s) acc0)
    as (acc1 & -> & H1); [apply pending_mark_mine|by left|done|].
  apply Hmarks; [apply pending_mark_safe|by right|done].
Qed.

Lemma check_knowledge_sweeps_returns st :
  is_Some (check_knowledge_sweeps set_iter st).
Proof. apply check_knowledge_fuel_returns. lia. Qed.

Lemma check_knowledge_returns st : is_Some (check_knowledge set_iter st).
Proof.
  unfold check_knowledge.
  destruct (check_knowledge_sweeps_returns st) as [r ->]. by eexists.
Qed.

(** Any fuel above the number of pending values gives the same result. *)
Lemma check_knowledge_fuel_enough fuel st :
  (size (pending st) < fuel)%nat →
  check_knowledge_fuel set_iter fuel st = check_knowledge_sweeps set_iter st.
Proof.
  intros Hfuel. destruct (check_knowledge_sweeps_returns st) as [r Hr].
  rewrite Hr. eapply check_knowledge_fuel_mono; [|exact Hr]. lia.
Qed.

End CheckKnowledge.

(** ** The sweep reaches a state that it leaves alone *)

Lemma for_each_id {S A : Type} (body : S → A → option S) l s :
  (∀ x, x ∈ l → body s x = Some s) → for_each body s l = Some s.
Proof.
  induction l as [|x l IH]; intros Hid; simpl; [done|].
  rewrite Hid by (by left). apply IH. intros ??. apply Hid. by right.
Qed.

Lemma list_remove_absent s N rest :
  Forall (λ x, x ≠ s) N → list_remove s (N ++ s :: rest) = N ++ rest.
Proof.
  induction 1 as [|x N Hx _ IH]; simpl.
  - by rewrite decide_True.
  - by rewrite decide_False, IH.
Qed.

Lemma truthy_empty_cells s :
  Sentence.cells s = ∅ →
  truthy (Sentence.known_mines s) = false ∧ truthy (Sentence.known_safes s) = false.
Proof.
  intros Hs. unfold Sentence.known_mines, Sentence.known_safes.
  split; case_decide; simpl; try done; rewrite Hs; by apply bool_decide_eq_false; intros [].
Qed.

Section Stable.
Variable set_iter : gset elem → list elem.

Lemma sweep_sentence_settled recur acc s :
  settled s → sweep_sentence set_iter recur acc s = Some acc.
Proof.
  intros (Hne & Hm & Hs). unfold sweep_sentence. rewrite Hm, Hs.
  rewrite decide_False; [done|]. by rewrite size_empty_iff, leibniz_equiv_iff.
Qed.

Lemma check_knowledge_fuel_stable fuel st :
  stable st → check_knowledge_fuel set_iter (S fuel) st = Some (st, 1%nat).
Proof.
  intros Hst. simpl. unfold check_knowledge_body.
  rewrite for_each_id; [done|].
  intros s Hs. apply sweep_sentence_settled.
  unfold stable in Hst. rewrite Forall_forall in Hst. by apply Hst.
Qed.

(** The marks of one sentence: nothing happens, or the last thing that
    happens is a nested sweep. *)
Lemma marks_end recur mark o acc acc' :
  (∀ st r, recur st = Some r → stable r.1) →
  (if truthy o
   then for_each (mark_and_recheck recur mark) acc (set_iter (default ∅ o))
   else Some acc) = Some acc' →
  (acc' = acc ∧ (truthy o = true → set_iter (default ∅ o) = []))
  ∨ stable acc'.1.
Proof.
  intros Hrec. destruct (truthy o); [|intros [= <-]; left; by split].
  destruct (set_iter (default ∅ o)) as [|c l] eqn:Hl.
  - intros [= <-]. left. by split.
  - intros Hrun. right.
    apply for_each_last in Hrun as ([st n] & x & _ & Hx); [|done].
    unfold mark_and_recheck in Hx.
    destruct (recur _) as [[st1 k]|] eqn:Hr; [|done]. simplify_eq.
    by apply Hrec in Hr.
Qed.

Hypothesis set_iter_perm : ∀ X, set_iter X ≡ₚ elements X.

Lemma truthy_set_iter o :
  truthy o = true → set_iter (default ∅ o) ≠ [].
Proof.
  intros (X & -> & HX)%truthy_Some. simpl.
  by rewrite (set_iter_nil set_iter set_iter_perm).
Qed.

Lemma sweep_sentence_progress recur acc acc' s rest :
  (∀ st r, recur st = Some r → stable r.1) →
  stable acc.1
  ∨ (∃ N, Forall settled N ∧ knowledge acc.1 = N ++ s :: rest) →
  sweep_sentence set_iter recur acc s = Some acc' →
  stable acc'.1 ∨ (∃ N, Forall settled N ∧ knowledge acc'.1 = N ++ rest).
Proof.
  intros Hrec HP. unfold sweep_sentence.
  destruct (decide (size (Sentence.cells s) = 0%nat)) as [Hz|Hnz].
  - apply size_empty_iff, leibniz_equiv in Hz.
    destruct (truthy_empty_cells s Hz) as [-> ->]. intros [= <-]. simpl.
    destruct HP as [Hst|(N & HN & Hk)].
    + left. unfold stable in *. simpl. rewrite Forall_forall in *.
      intros x Hx. by apply Hst, (list_remove_subseteq s).
    + right. exists N. split; [done|]. rewrite Hk. apply list_remove_absent.
      eapply Forall_impl; [exact HN|]. intros x (Hx & _) ->. done.
  - destruct (if truthy (Sentence.known_mines s) then _ else Some acc)
      as [acc1|] eqn:H1; [|done].
    intros H2. apply marks_end in H1, H2; [|done..].
    destruct H2 as [[-> Hs]|H2]; [|by left].
    destruct H1 as [[-> Hm]|H1]; [|by left].
    destruct HP as [Hst|(N & HN & Hk)]; [by left|].
    right. exists (N ++ [s]). split; [|by rewrite Hk, <- app_assoc].
    apply Forall_app. split; [done|]. apply Forall_singleton.
    split; [|split].
    + intros Hc. apply Hnz. by rewrite Hc, size_empty.
    + destruct (truthy (Sentence.known_mines s)) eqn:Ht; [|done].
      by destruct (truthy_set_iter _ Ht); apply Hm.
    + destruct (truthy (Sentence.known_safes s)) eqn:Ht; [|done].
      by destruct (truthy_set_iter _ Ht); apply Hs.
Qed.

Lemma check_knowledge_fuel_reaches_stable fuel st r :
  check_knowledge_fuel set_iter fuel st = Some r → stable r.1.
Proof.
  revert st r. induction fuel as [|fuel IH]; intros st r; simpl; [done|].
  unfold check_knowledge_body.
  destruct (for_each _ _ _) as [[st' k]|] eqn:Hrun; [|done].
  intros [= <-]. simpl.
  assert (stable st' ∨ ∃ N, Forall settled N ∧ knowledge st' = N ++ []) as HP.
  { revert Hrun.
    apply (for_each_ind _ (λ a rest,
             stable a.1 ∨ ∃ N, Forall settled N ∧ knowledge a.1 = N ++ rest)).
    - intros acc s rest acc' HP Hstep.
      by eapply sweep_sentence_progress.
    - right. by exists []. }
  destruct HP as [?|(N & HN & Hk)]; [done|].
  unfold stable. by rewrite Hk, app_nil_r.
Qed.

(** A second sweep changes nothing. *)
Lemma check_knowledge_twice st st' :
  check_knowledge set_iter st = Some st' →
  check_knowledge set_iter st' = Some st'.
Proof.
  unfold check_knowledge, check_knowledge_sweeps. intros Hrun.
  destruct (check_knowledge_fuel set_iter _ st) as [r|] eqn:Hr; [|done].
  simpl in Hrun. simplify_eq.
  apply check_knowledge_fuel_reaches_stable in Hr.
  by rewrite check_knowledge_fuel_stable.
Qed.

End Stable.

(** ** Subset inference: what it preserves *)

Lemma foldl_preserves {A B : Type} (R : relation A) `{!PreOrder R}
    (f : A → B → A) (l : list B) :
  (∀ a x, R a (f a x)) → ∀ a, R a (foldl f a l).
Proof.
  intros Hf. induction l as [|x l IH]; intros a; simpl; [done|].
  etrans; [apply Hf|apply IH].
Qed.

Section Inference.
Variable set_iter : gset elem → list elem.

Section Preserved.
Variable R : relation MinesweeperAI.
Context `{!PreOrder R}.
Hypothesis R_set_count : ∀ st j n, R st (set_count st j n).
Hypothesis R_mark_mine : ∀ st c, R st (mark_mine st c).
Hypothesis R_mark_safe : ∀ st c, R st (mark_safe st c).

Lemma inference_pair_preserves st i j : R st (inference_pair set_iter st i j).
Proof.
  unfold inference_pair.
  destruct (knowledge st !! i) as [s1|]; [|done].
  destruct (knowledge st !! j) as [s2|]; [|done].
  case_decide; [|done].
  etrans; [apply R_set_count|].
  destruct (truthy (Sentence.known_mines _)),
           (truthy (Sentence.known_safes _)); try done.
  - etrans; [|by apply (foldl_preserves R mark_safe)].
    by apply (foldl_preserves R mark_mine).
  - by apply (foldl_preserves R mark_mine).
  - by apply (foldl_preserves R mark_safe).
Qed.

Lemma inference_preserves st : R st (inference set_iter st).
Proof.
  unfold inference. apply foldl_preserves; [done|]. intros a i.
  apply foldl_preserves; [done|]. intros b j. apply inference_pair_preserves.
Qed.
End Preserved.
End Inference.

(** ** [safes] and [mines] only grow *)

#[local] Instance grows_preorder : PreOrder grows.
Proof. split; unfold grows; [intros ?|intros ???]; set_solver. Qed.

Lemma grows_mark_mine st c : grows st (mark_mine st c).
Proof. unfold grows. simpl. set_solver. Qed.

Lemma grows_mark_safe st c : grows st (mark_safe st c).
Proof. unfold grows. simpl. set_solver. Qed.

Lemma grows_check_knowledge set_iter st st' :
  check_knowledge set_iter st = Some st' → grows st st'.
Proof.
  unfold check_knowledge, check_knowledge_sweeps.
  destruct (check_knowledge_fuel _ _ _) as [r|] eqn:Hr; [|done].
  intros [= <-]. revert Hr. apply (check_knowledge_fuel_preserves _ grows).
  - done.
  - apply grows_mark_mine.
  - apply grows_mark_safe.
Qed.

Lemma grows_inference set_iter st : grows st (inference set_iter st).
Proof.
  apply (inference_preserves _ grows).
  - done.
  - apply grows_mark_mine.
  - apply grows_mark_safe.
Qed.

Lemma grows_store_sentence set_iter st cell count :
  grows st (store_sentence set_iter st cell count).
Proof.
  unfold store_sentence, record_move. case_decide; unfold grows; simpl; set_solver.
Qed.

Lemma grows_add_knowledge set_iter st cell count st' :
  add_knowledge set_iter st cell count = Some st' → grows st st'.
Proof.
  unfold add_knowledge.
  destruct (check_knowledge _ _) as [st1|] eqn:Hck; [|done]. intros [= <-].
  etrans; [apply grows_store_sentence|].
  etrans; [by eapply grows_check_knowledge|apply grows_inference].
Qed.

Lemma add_knowledge_is_Some set_iter st cell count :
  (∀ X, set_iter X ≡ₚ elements X) →
  is_Some (add_knowledge set_iter st cell count).
Proof.
  intros Hperm. unfold add_knowledge.
  by destruct (check_knowledge_returns set_iter Hperm
                 (store_sentence set_iter st cell count)) as [st1 ->].
Qed.

(** Subset inference never changes the number of sentences. *)
#[local] Instance same_length_preorder : PreOrder same_length.
Proof.
  split; unfold same_length; [by intros ?|]. intros ??? H1 H2. by rewrite H2.
Qed.

Lemma inference_length set_iter st :
  length (knowledge (inference set_iter st)) = length (knowledge st).
Proof.
  apply (inference_preserves set_iter same_length); unfold same_length.
  - intros. simpl. by rewrite length_alter.
  - intros. simpl. by rewrite length_fmap.
  - intros. simpl. by rewrite length_fmap.
Qed.

(** ** Neighbours *)

Lemma elem_of_range n x : x ∈ range n ↔ 0 <= x < n.
Proof.
  unfold range. rewrite list_elem_of_fmap. split.
  - intros (k & -> & Hk). apply elem_of_seq in Hk. lia.
  - intros Hx. exists (Z.to_nat x). split; [lia|]. apply elem_of_seq. lia.
Qed.

(** A loop that only adds to a set: the result holds what was there and
    what some turn added. *)
Lemma elem_of_foldl_adding {B : Type} (g : gset elem → B → gset elem)
    (Q : B → elem → Prop) (l : list B) :
  (∀ acc x e, e ∈ g acc x ↔ e ∈ acc ∨ Q x e) →
  ∀ acc e, e ∈ foldl g acc l ↔ e ∈ acc ∨ ∃ x, x ∈ l ∧ Q x e.
Proof.
  intros Hg. induction l as [|y l IH]; intros acc e; simpl.
  - set_solver.
  - rewrite IH, Hg. set_solver.
Qed.

Lemma elem_of_return_neighbors st cell e :
  e ∈ return_neighbors st cell ↔
  e = EInt cell.1 ∨ e = EInt cell.2
  ∨ ∃ rows cols, e = ECell rows cols ∧ adjacent st cell rows cols.
Proof.
  unfold return_neighbors.
  rewrite (elem_of_foldl_adding _
    (λ rows e, ∃ cols, cols ∈ range (width st)
       ∧ Z.abs (cell.1 - rows) <= 1 ∧ Z.abs (cell.2 - cols) <= 1
       ∧ (rows, cols) ≠ cell ∧ e = ECell rows cols)).
  - unfold adjacent. rewrite elem_of_union, !elem_of_singleton.
    split.
    + intros [[->| ->]|(rows & Hr & cols & Hc & ? & ? & ? & ->)]; [by left|by right; left|].
      apply elem_of_range in Hr, Hc. right; right. by exists rows, cols.
    + intros [->|[->|(rows & cols & -> & ? & ? & ? & ? & ?)]];
        [by left; left|by left; right|].
      right. exists rows. split; [by apply elem_of_range|].
      exists cols. split; [by apply elem_of_range|done].
  - intros acc rows e'.
    rewrite (elem_of_foldl_adding _
      (λ cols e, Z.abs (cell.1 - rows) <= 1 ∧ Z.abs (cell.2 - cols) <= 1
         ∧ (rows, cols) ≠ cell ∧ e = ECell rows cols)).
    + naive_solver.
    + intros acc' cols e''. case_decide; set_solver.
Qed.

(** ** The sentence that [add_knowledge] builds *)

Section NewSentence.
Variable set_iter : gset elem → list elem.
Hypothesis set_iter_perm : ∀ X, set_iter X ≡ₚ elements X.

(** Once [safes] is not empty the test of line 217 lets every neighbour
    through. *)
Lemma new_sentence_cells st cell count :
  safes st ≠ ∅ →
  Sentence.cells (new_sentence set_iter st cell count) = return_neighbors st cell.
Proof.
  intros Hsafes. unfold new_sentence.
  assert (∀ l (X : gset elem) n,
    (foldl (λ '(new_cells, cont_deepcpy) cl,
       let cont_deepcpy :=
         if decide (cl ∈ mines st) then cont_deepcpy - 1 else cont_deepcpy in
       let new_cells : gset elem :=
         if bool_decide (cl ∉ mines st) || bool_decide (safes st ≠ ∅)
         then {[cl]} ∪ new_cells else new_cells in
       (new_cells, cont_deepcpy)) (X, n) l).1 = list_to_set l ∪ X) as Hfold.
  { induction l as [|c l IH]; intros X n; simpl; [set_solver|].
    rewrite IH. rewrite (bool_decide_eq_true_2 (safes st ≠ ∅)) by done.
    rewrite orb_true_r. set_solver. }
  specialize (Hfold (set_iter (return_neighbors st cell)) ∅ count).
  destruct (foldl _ _ _) as [new_cells cont]. simpl in *. subst new_cells.
  apply set_eq. intros x.
  rewrite elem_of_union, elem_of_list_to_set, (elem_of_set_iter _ set_iter_perm).
  set_solver.
Qed.

Lemma record_move_safes st cell : safes (record_move st cell) ≠ ∅.
Proof. unfold record_move. simpl. set_solver. Qed.

(** In [add_knowledge] the sentence holds every neighbour, whatever is
    known about it. *)
Lemma stored_sentence_cells st cell count :
  Sentence.cells (new_sentence set_iter (record_move st cell) cell count)
  = return_neighbors st cell.
Proof. rewrite new_sentence_cells; [done|apply record_move_safes]. Qed.
End NewSentence.

(** ** Choosing a move *)

Lemma first_cell_Some l cell :
  first_cell l = Some cell → cell_elem cell ∈ l.
Proof.
  induction l as [|[n|r c] l IH]; simpl; [done| |].
  - intros H. right. by apply IH.
  - intros [= <-]. by left.
Qed.

Lemma first_cell_None l :
  first_cell l = None ↔ ∀ r c, ECell r c ∉ l.
Proof.
  induction l as [|[n|r c] l IH]; simpl.
  - split; [|done]. intros _ r c. apply not_elem_of_nil.
  - rewrite IH. split; intros H r c.
    + rewrite not_elem_of_cons. split; [done|apply H].
    + specialize (H r c). rewrite not_elem_of_cons in H. apply H.
  - split; [done|]. intros H. destruct (H r c). by left.
Qed.

Section RandomMove.
Variable randrange : nat → Z → Z.
Hypothesis randrange_spec : ∀ draw n, 0 < n → 0 <= randrange draw n < n.

Lemma make_random_move_loop_spec st max_moves draw :
  let res := make_random_move_loop randrange st max_moves draw in
  (res.2 ≤ max_moves)%nat
  ∧ (∀ r c, res.1 = Returned (Some (r, c)) → eligible st r c)
  ∧ (max_moves = 0%nat ∨ 0 < height st ∧ 0 < width st →
     res.1 ≠ Raised
     ∧ ((∀ r c, ¬ eligible st r c) → res.1 = Returned None)).
Proof.
  revert draw. induction max_moves as [|k IH]; intros draw; simpl.
  - split; [lia|]. split; [done|]. done.
  - unfold py_randrange.
    destruct (decide (0 < height st)) as [Hh|Hh]; simpl.
    2:{ split; [lia|]. split; [done|]. intros [?|[??]]; [done|lia]. }
    destruct (decide (0 < width st)) as [Hw|Hw]; simpl.
    2:{ split; [lia|]. split; [done|]. intros [?|[??]]; [done|lia]. }
    pose proof (randrange_spec draw (height st) Hh) as Hr.
    pose proof (randrange_spec (S draw) (width st) Hw) as Hc.
    case_decide as Hfree.
    + simpl. split; [lia|]. split.
      * intros r c [= <- <-]. unfold eligible. tauto.
      * intros _. split; [done|]. intros Hnone.
        destruct (Hnone (randrange draw (height st))
                        (randrange (S draw) (width st))).
        unfold eligible. tauto.
    + specialize (IH (S (S draw))).
      destruct (make_random_move_loop randrange st k (S (S draw))) as [o n].
      simpl in *. destruct IH as (Hn & Hret & Hnone).
      split; [lia|]. split; [done|]. intros _. apply Hnone. by right.
Qed.

End RandomMove.

(** ** The invariants of the knowledge base *)

Lemma size_remove_member (X : gset elem) c :
  c ∈ X → Z.of_nat (size (X ∖ {[c]})) = Z.of_nat (size X) - 1.
Proof.
  intros Hc. rewrite size_difference by set_solver. rewrite size_singleton.
  assert (size X ≠ 0%nat) as Hpos; [|lia].
  intros H0. apply size_empty_iff in H0. set_solver.
Qed.

Lemma mark_safe_invariant st c :
  kb_invariant st →
  c ∉ mines st →
  (∀ s, s ∈ knowledge st → c ∈ Sentence.cells s →
        Sentence.count s < Z.of_nat (size (Sentence.cells s))) →
  kb_invariant (mark_safe st c).
Proof.
  intros (Hdisj & Hcount & Hunk) Hc Hlt. unfold kb_invariant. simpl.
  rewrite !Forall_fmap, !Forall_forall in *.
  split; [set_solver|]. split.
  - intros s Hs. specialize (Hcount s Hs). specialize (Hlt s Hs).
    unfold count_in_range, Sentence.mark_safe, compose in *.
    case_decide as Hin; simpl; [|done]. specialize (Hlt Hin).
    rewrite size_remove_member by done. lia.
  - intros s Hs. specialize (Hunk s Hs).
    unfold unknown_cells, compose in *. simpl. rewrite cells_mark_safe. set_solver.
Qed.

Lemma mark_mine_invariant st c :
  kb_invariant st →
  c ∉ safes st →
  (∀ s, s ∈ knowledge st → c ∈ Sentence.cells s → 0 < Sentence.count s) →
  kb_invariant (mark_mine st c).
Proof.
  intros (Hdisj & Hcount & Hunk) Hc Hlt. unfold kb_invariant. simpl.
  rewrite !Forall_fmap, !Forall_forall in *.
  split; [set_solver|]. split.
  - intros s Hs. specialize (Hcount s Hs). specialize (Hlt s Hs).
    unfold count_in_range, Sentence.mark_mine, compose in *.
    case_decide as Hin; simpl; [|done]. specialize (Hlt Hin).
    rewrite size_remove_member by done. lia.
  - intros s Hs. specialize (Hunk s Hs).
    unfold unknown_cells, compose in *. simpl. rewrite cells_mark_mine. set_solver.
Qed.

(** * The claims *)

Lemma elements_perm (X : gset elem) : elements X ≡ₚ elements X.
Proof. reflexivity. Defined.

(** ** Subset inference (C1, C5) *)

(** C1, at the input of the claim: from [{A,B,C} = 1] and [{A,B} = 1]
    [inference] derives [{C}] with the count of the smaller sentence, 1,
    not with the difference 0, and so marks C as a mine; [safes] stays
    empty.  Line 258 also overwrites the count of the larger sentence,
    which the mark then lowers to 0.  Only the one-element set [{C}] is
    iterated, so the order of iteration plays no part. *)
Theorem subset_rule_marks_mine :
  inference elements kb_subset_rule
  = mkAI 3 3 ∅ {[cell_C]} ∅
      [Sentence.mk {[cell_A; cell_B]} 0; Sentence.mk {[cell_A; cell_B]} 1].
Proof. vm_compute. reflexivity. Qed.

(** C5, at a failing input: the subset rule applies to [{A,B} = 1] and
    [{A,B,C,D} = 2]; the derived sentence over [{C,D}] has cells and is not
    in the knowledge base, and [inference] does not add it: the list keeps
    its two sentences (the first with its count overwritten) and nothing
    is marked. *)
Theorem inference_adds_no_sentence :
  inference elements kb_derive
  = mkAI 3 3 ∅ ∅ ∅
      [Sentence.mk {[cell_A; cell_B; cell_C; cell_D]} 1;
       Sentence.mk {[cell_A; cell_B]} 1].
Proof. vm_compute. reflexivity. Qed.

(** ** Neighbours and the new sentence (C3, C4) *)

(** C3, at a failing input: on a 3 x 3 board the neighbours of [(1, 1)]
    are returned together with the integer 1, the row and column of the
    cell, left in the set by [set(cell)]: nine values, one of them not a
    cell. *)
Theorem return_neighbors_holds_coordinates :
  return_neighbors (init 3 3) (1, 1)
  = {[EInt 1; ECell 0 0; ECell 0 1; ECell 0 2; ECell 1 0; ECell 1 2;
      ECell 2 0; ECell 2 1; ECell 2 2]}
  ∧ size (return_neighbors (init 3 3) (1, 1)) = 9%nat.
Proof. split; vm_compute; reflexivity. Qed.

(** C4, at a failing input: with [(0, 0)] a known mine and [(0, 1)] known
    safe, the sentence built for [(1, 1)] with count 1 keeps both of them
    (and the integer 1) among its cells; the count is lowered to 0 for the
    mine. *)
Theorem new_sentence_keeps_known_cells :
  new_sentence elements (record_move kb_known (1, 1)) (1, 1) 1
  = Sentence.mk
      {[EInt 1; ECell 0 0; ECell 0 1; ECell 0 2; ECell 1 0; ECell 1 2;
        ECell 2 0; ECell 2 1; ECell 2 2]} 0.
Proof. vm_compute. reflexivity. Qed.

(** ** The invariants (C2) *)

(** C2 fails as stated: [markMine] and [markSafe] do not look at what is
    known already; marking [(0, 0)] a mine and then safe leaves it in both
    sets. *)
Lemma marks_break_disjointness :
  ∃ st, run elements (init 3 3) [MarkMine (0, 0); MarkSafe (0, 0)] = Some st
        ∧ ¬ kb_invariant st.
Proof.
  eexists. split; [reflexivity|]. intros (Hdisj & _). simpl in Hdisj.
  apply (Hdisj cell_A); set_solver.
Qed.

(** Nor do they look at the counts: after the observation [((1, 1), 1)]
    on a 3 x 3 board, marking two of the neighbours as mines takes the
    count of the sentence to -1. *)
Lemma marks_break_count_range :
  ∃ st, run elements (init 3 3) [Observe (1, 1) 1; MarkMine (0, 0); MarkMine (0, 1)]
        = Some st
        ∧ ¬ Forall count_in_range (knowledge st).
Proof.
  eexists. split; [vm_compute; reflexivity|].
  apply (bool_decide_eq_false_1 _). vm_compute. reflexivity.
Qed.

(** Observations break them too.  On a 3 x 3 board with one mine at
    [(0, 1)] the observations [((1, 1), 1)] and [((1, 2), 1)] are true; the
    sentence stored by the second holds [(1, 1)], which is in [safes]. *)
Lemma observations_keep_known_cells :
  ∃ st, run elements (init 3 3) [Observe (1, 1) 1; Observe (1, 2) 1] = Some st
        ∧ ¬ kb_invariant st.
Proof.
  eexists. split; [vm_compute; reflexivity|].
  apply (bool_decide_eq_false_1 _). vm_compute. reflexivity.
Qed.

(** C2 as amended: on a state that satisfies the three invariants,
    [markSafe c] gives one that satisfies them when [c] is not a known
    mine and no sentence that holds [c] has all its cells mines;
    [markMine c] does when [c] is not known safe and no sentence that
    holds [c] has count 0. *)
Theorem marks_keep_invariant st c :
  kb_invariant st →
  (c ∉ mines st →
   (∀ s, s ∈ knowledge st → c ∈ Sentence.cells s →
         Sentence.count s < Z.of_nat (size (Sentence.cells s))) →
   kb_invariant (mark_safe st c))
  ∧ (c ∉ safes st →
     (∀ s, s ∈ knowledge st → c ∈ Sentence.cells s → 0 < Sentence.count s) →
     kb_invariant (mark_mine st c)).
Proof.
  intros Hinv. split.
  - by apply mark_safe_invariant.
  - by apply mark_mine_invariant.
Qed.

Lemma marks_keep_invariant_witness :
  kb_invariant (mark_safe kb_one_of_two cell_A)
  ∧ kb_invariant (mark_mine kb_one_of_two cell_A).
Proof.
  assert (kb_invariant kb_one_of_two) as Hinv.
  { apply (bool_decide_unpack _). vm_compute. exact I. }
  destruct (marks_keep_invariant kb_one_of_two cell_A Hinv) as [Hsafe Hmine].
  split.
  - apply Hsafe; [apply not_elem_of_empty|].
    intros s Hs _. apply list_elem_of_singleton in Hs as ->. vm_compute. reflexivity.
  - apply Hmine; [apply not_elem_of_empty|].
    intros s Hs _. apply list_elem_of_singleton in Hs as ->. vm_compute. reflexivity.
Defined.

(** ** Termination of [add_knowledge] (C6) *)

(** C6 fails as stated for the number of sweeps: [add_knowledge] stores a
    sentence without looking for an equal one, and [check_knowledge] calls
    itself after every single mark, once for every sentence of its copy
    that gives a conclusion.  On a 1 x 2 board, which has four sets of
    cells, the observation that follows [ops_repeated] runs eight
    sweeps, in whichever order the two values of the last sentence are
    visited. *)
Lemma sweeps_exceed_subsets :
  ∃ st st' sweeps,
    run elements (init 1 2) ops_repeated = Some st
    ∧ check_knowledge_sweeps elements (store_sentence elements st (0, 0) 1)
      = Some (st', sweeps)
    ∧ (2 ^ (1 * 2) < sweeps)%nat.
Proof.
  eexists _, _, _. split; [vm_compute; reflexivity|].
  split; [vm_compute; reflexivity|]. vm_compute. lia.
Qed.

(** C6 as amended: [add_knowledge] returns on every state and input.  The
    calls of [check_knowledge] never nest deeper than one more than the
    number of values that occur in the sentences: with any such fuel the
    sweep of the state that holds the new sentence returns the same state
    and number of sweeps, and [add_knowledge] returns what [inference]
    makes of that state. *)
Theorem add_knowledge_returns set_iter st cell count :
  (∀ X, set_iter X ≡ₚ elements X) →
  let stored := store_sentence set_iter st cell count in
  ∃ st' sweeps,
    (∀ fuel, (size (pending stored) < fuel)%nat →
       check_knowledge_fuel set_iter fuel stored = Some (st', sweeps))
    ∧ add_knowledge set_iter st cell count = Some (inference set_iter st').
Proof.
  intros Hperm stored.
  destruct (check_knowledge_sweeps_returns set_iter Hperm stored)
    as [[st' sweeps] Hr].
  exists st', sweeps. split.
  - intros fuel Hfuel. by rewrite check_knowledge_fuel_enough.
  - unfold add_knowledge, check_knowledge. fold stored. by rewrite Hr.
Qed.

Lemma add_knowledge_returns_witness :
  let stored := store_sentence elements kb_one_of_two (1, 1) 1 in
  ∃ st' sweeps,
    (∀ fuel, (size (pending stored) < fuel)%nat →
       check_knowledge_fuel elements fuel stored = Some (st', sweeps))
    ∧ add_knowledge elements kb_one_of_two (1, 1) 1
      = Some (inference elements st').
Proof. apply (add_knowledge_returns elements), elements_perm. Defined.

(** ** Running the pass twice (C7) *)

(** C7, at a failing input: on a 2 x 2 board with mines at [(1, 0)] and
    [(1, 1)] the observations [((0, 0), 2)] and [((0, 1), 2)] are true.
    The pass that ends the second one leaves two sentences of count 0 in
    the knowledge base, their conclusion not drawn although step 4 of the
    docstring of [add_knowledge] asks for it: [inference] marks cells and
    overwrites a count, and no sweep follows.  Run again at once, with no
    observation in between, the pass marks the cells of these sentences
    safe: the second run changes the state.  The sets that are iterated
    are marked as a whole, so the order plays no part. *)
Lemma inference_pass_not_idempotent :
  ∃ st0 st1 st2,
    add_knowledge elements (init 2 2) (0, 0) 2 = Some st0
    ∧ inference_pass elements (store_sentence elements st0 (0, 1) 2) = Some st1
    ∧ inference_pass elements st1 = Some st2
    ∧ safes st1 = {[ECell 0 0; ECell 0 1]}
    ∧ ECell 1 0 ∈ safes st2.
Proof.
  eexists _, _, _. split; [vm_compute; reflexivity|].
  split; [vm_compute; reflexivity|]. split; [vm_compute; reflexivity|].
  split; [vm_compute; reflexivity|].
  apply (bool_decide_unpack _). vm_compute. exact I.
Qed.

(** On the hand-made state [kb_chain] the first pass marks C a mine,
    which turns [{C,D} = 1] into [{D} = 0]; the second pass draws the
    conclusion. *)
Lemma inference_leaves_conclusions :
  ∃ st1 st2,
    inference_pass elements kb_chain = Some st1
    ∧ inference_pass elements st1 = Some st2
    ∧ safes st1 = ∅
    ∧ cell_D ∈ safes st2.
Proof.
  eexists _, _. split; [vm_compute; reflexivity|].
  split; [vm_compute; reflexivity|].
  split; [reflexivity|]. apply (bool_decide_unpack _). vm_compute. exact I.
Qed.

(** The sweep [check_knowledge] alone returns, and run again on its
    result it returns that result unchanged. *)
Theorem check_knowledge_idempotent set_iter st :
  (∀ X, set_iter X ≡ₚ elements X) →
  ∃ st', check_knowledge set_iter st = Some st'
         ∧ check_knowledge set_iter st' = Some st'.
Proof.
  intros Hperm. destruct (check_knowledge_returns set_iter Hperm st) as [st' Hr].
  exists st'. split; [done|]. by eapply check_knowledge_twice.
Qed.

Lemma check_knowledge_idempotent_witness :
  ∃ st', check_knowledge elements kb_all_mines = Some st'
         ∧ check_knowledge elements st' = Some st'.
Proof. apply (check_knowledge_idempotent elements), elements_perm. Defined.

(** ** Monotonicity (C8) *)

(** C8: every sequence of [observe], [markSafe] and [markMine] runs to its
    end, from any state, and [safes] and [mines] of the state it starts
    from are contained in those of the state it reaches. *)
Theorem safes_mines_only_grow set_iter ops st :
  (∀ X, set_iter X ≡ₚ elements X) →
  ∃ st', run set_iter st ops = Some st'
         ∧ safes st ⊆ safes st' ∧ mines st ⊆ mines st'.
Proof.
  intros Hperm.
  destruct (for_each_total (run_op set_iter) (grows st) ops) with (s := st)
    as (st' & Hrun & Hgrows); [|done|by exists st'].
  intros st1 o _ H1. destruct o as [cell count|cell|cell]; simpl.
  - destruct (add_knowledge_is_Some set_iter st1 cell count Hperm) as [st2 H2].
    exists st2. split; [done|]. etrans; [done|]. by eapply grows_add_knowledge.
  - eexists. split; [done|]. etrans; [done|]. apply grows_mark_safe.
  - eexists. split; [done|]. etrans; [done|]. apply grows_mark_mine.
Qed.

Lemma safes_mines_only_grow_witness :
  ∃ st', run elements kb_known [Observe (1, 1) 1; MarkMine (2, 2); Observe (1, 2) 1]
         = Some st'
         ∧ safes kb_known ⊆ safes st' ∧ mines kb_known ⊆ mines st'.
Proof. apply (safes_mines_only_grow elements), elements_perm. Defined.

(** ** Safe moves (C9) *)

(** C9 fails as stated: [safes] also holds the integers that
    [return_neighbors] leaves in its result, and [make_safe_move] passes
    over whatever is not a 2-tuple.  After the single observation
    [((0, 0), 0)] on a 1 x 1 board [safes - moves_made] is [{0}], not
    empty, and nothing is returned. *)
Lemma make_safe_move_skips_integers :
  ∃ st, add_knowledge elements (init 1 1) (0, 0) 0 = Some st
        ∧ safes st ∖ moves_made st = {[EInt 0]}
        ∧ safes st ∖ moves_made st ≠ ∅
        ∧ make_safe_move elements st = None.
Proof.
  eexists. split; [vm_compute; reflexivity|].
  split; [vm_compute; reflexivity|]. split; [|vm_compute; reflexivity].
  eapply (bool_decide_unpack _). vm_compute. exact I.
Qed.

(** C9 as amended: a cell that [make_safe_move] returns is a 2-tuple of
    [safes - moves_made]; it returns one whenever that set holds a
    2-tuple, and returns nothing exactly when it holds none. *)
Theorem make_safe_move_spec set_iter st :
  (∀ X, set_iter X ≡ₚ elements X) →
  (∀ cell, make_safe_move set_iter st = Some cell →
           cell_elem cell ∈ safes st ∖ moves_made st)
  ∧ ((∃ r c, ECell r c ∈ safes st ∖ moves_made st) →
     is_Some (make_safe_move set_iter st))
  ∧ (make_safe_move set_iter st = None ↔
     ∀ r c, ECell r c ∉ safes st ∖ moves_made st).
Proof.
  intros Hperm. unfold make_safe_move.
  assert (first_cell (set_iter (safes st ∖ moves_made st)) = None ↔
          ∀ r c, ECell r c ∉ safes st ∖ moves_made st) as Hnone.
  { rewrite first_cell_None. by setoid_rewrite (elem_of_set_iter _ Hperm). }
  split; [|split; [|done]].
  - intros cell Hcell. apply first_cell_Some in Hcell.
    by apply (elem_of_set_iter _ Hperm) in Hcell.
  - intros (r & c & Hrc).
    destruct (first_cell _) as [cell|]; [by eexists|].
    destruct Hnone as [Hnone _]. by destruct (Hnone eq_refl r c).
Qed.

Lemma make_safe_move_spec_witness :
  (∀ cell, make_safe_move elements kb_safe_moves = Some cell →
           cell_elem cell ∈ safes kb_safe_moves ∖ moves_made kb_safe_moves)
  ∧ ((∃ r c, ECell r c ∈ safes kb_safe_moves ∖ moves_made kb_safe_moves) →
     is_Some (make_safe_move elements kb_safe_moves))
  ∧ (make_safe_move elements kb_safe_moves = None ↔
     ∀ r c, ECell r c ∉ safes kb_safe_moves ∖ moves_made kb_safe_moves).
Proof. apply (make_safe_move_spec elements), elements_perm. Defined.

(** ** Random moves (C10) *)

(** C10: [make_random_move] makes at most [width * height] attempts and
    then returns; a cell it returns is on the board and neither played nor
    a known mine; on a board whose sides are not negative no call of
    [randrange] raises, and when the board has no such cell nothing is
    returned. *)
Theorem make_random_move_spec randrange st draw :
  (∀ draw n, 0 < n → 0 <= randrange draw n < n) →
  let res := make_random_move randrange st draw in
  (res.2 ≤ Z.to_nat (width st * height st))%nat
  ∧ (∀ r c, res.1 = Returned (Some (r, c)) → eligible st r c)
  ∧ (0 <= height st → 0 <= width st →
     res.1 ≠ Raised
     ∧ ((∀ r c, ¬ eligible st r c) → res.1 = Returned None)).
Proof.
  intros Hspec. unfold make_random_move.
  destruct (make_random_move_loop_spec randrange Hspec st
              (Z.to_nat (width st * height st)) draw) as (Hn & Hret & Hnone).
  split; [done|]. split; [done|]. intros Hh Hw. apply Hnone. nia.
Qed.

Lemma make_random_move_spec_witness :
  let res := make_random_move counting_randrange kb_played 0 in
  (res.2 ≤ Z.to_nat (width kb_played * height kb_played))%nat
  ∧ (∀ r c, res.1 = Returned (Some (r, c)) → eligible kb_played r c)
  ∧ (0 <= height kb_played → 0 <= width kb_played →
     res.1 ≠ Raised
     ∧ ((∀ r c, ¬ eligible kb_played r c) → res.1 = Returned None)).
Proof.
  apply (make_random_move_spec counting_randrange).
  intros draw n Hn. unfold counting_randrange. apply Z.mod_pos_bound. lia.
Defined.

(** * Further properties of the code *)

(** ** Sentences and the board they speak about *)

Lemma size_inter_remove (X M : gset elem) c :
  c ∈ X → c ∈ M →
  Z.of_nat (size ((X ∖ {[c]}) ∩ M)) = Z.of_nat (size (X ∩ M)) - 1.
Proof.
  intros HX HM. replace ((X ∖ {[c]}) ∩ M) with ((X ∩ M) ∖ {[c]}) by set_solver.
  apply size_remove_member. set_solver.
Qed.

Lemma known_mines_are_mines M s X :
  true_of M s → Sentence.known_mines s = Some X → X ⊆ M.
Proof.
  unfold true_of. intros Htrue HX.
  apply known_mines_Some in HX as [-> Hcount].
  assert (Sentence.cells s ∩ M = Sentence.cells s) as Heq; [|set_solver].
  apply set_subseteq_size_eq; [set_solver|]. lia.
Qed.

Lemma known_safes_are_safe M s X :
  true_of M s → Sentence.known_safes s = Some X → X ## M.
Proof.
  unfold true_of. intros Htrue HX.
  apply known_safes_Some in HX as [-> Hcount].
  assert (size (Sentence.cells s ∩ M) = 0%nat) as H0 by lia.
  apply size_empty_iff in H0. set_solver.
Qed.

(** What [known_mines] returns for a true sentence are mines, and what
    [known_safes] returns are not. *)
Theorem known_cells_sound M s :
  true_of M s →
  (∀ X, Sentence.known_mines s = Some X → X ⊆ M)
  ∧ (∀ X, Sentence.known_safes s = Some X → X ## M).
Proof.
  intros Htrue. split; intros X HX.
  - by eapply known_mines_are_mines.
  - by eapply known_safes_are_safe.
Qed.

Lemma sentence_mark_mine_true M s c :
  true_of M s → c ∈ M → true_of M (Sentence.mark_mine s c).
Proof.
  unfold true_of. intros Htrue Hc.
  unfold Sentence.mark_mine. case_decide; simpl; [|done].
  rewrite size_inter_remove by done. lia.
Qed.

Lemma sentence_mark_safe_true M s c :
  true_of M s → c ∉ M → true_of M (Sentence.mark_safe s c).
Proof.
  unfold true_of. intros Htrue Hc.
  unfold Sentence.mark_safe. case_decide; simpl; [|done].
  rewrite Htrue. do 2 f_equal. set_solver.
Qed.

(** A true sentence stays true when a cell that is a mine is marked a
    mine, and when a cell that is not is marked safe. *)
Theorem sentence_marks_keep_truth M s c :
  true_of M s →
  (c ∈ M → true_of M (Sentence.mark_mine s c))
  ∧ (c ∉ M → true_of M (Sentence.mark_safe s c)).
Proof.
  intros Htrue. split; intros Hc.
  - by apply sentence_mark_mine_true.
  - by apply sentence_mark_safe_true.
Qed.

(** ** Marking cells *)

Lemma sentence_marks_commute s c d :
  c ≠ d →
  Sentence.mark_mine (Sentence.mark_safe s c) d
  = Sentence.mark_safe (Sentence.mark_mine s d) c
  ∧ Sentence.mark_safe (Sentence.mark_safe s c) d
    = Sentence.mark_safe (Sentence.mark_safe s d) c
  ∧ Sentence.mark_mine (Sentence.mark_mine s c) d
    = Sentence.mark_mine (Sentence.mark_mine s d) c.
Proof.
  intros Hne. destruct s as [X n].
  unfold Sentence.mark_mine, Sentence.mark_safe. simpl.
  repeat split; repeat (case_decide; simpl in * ); try done;
    try (exfalso; set_solver); f_equal; set_solver.
Qed.

Lemma sentence_marks_again s c :
  Sentence.mark_safe (Sentence.mark_safe s c) c = Sentence.mark_safe s c
  ∧ Sentence.mark_mine (Sentence.mark_mine s c) c = Sentence.mark_mine s c.
Proof.
  unfold Sentence.mark_mine, Sentence.mark_safe.
  split; repeat (case_decide; simpl in * ); try done; exfalso; set_solver.
Qed.

(** Marks of two different cells can be made in either order, whether
    both are mines, both safe, or one of each; and a mark made twice is
    the mark made once, the count of a sentence being lowered only while
    the cell is still among its cells. *)
Theorem marks_commute st c d :
  c ≠ d →
  mark_mine (mark_safe st c) d = mark_safe (mark_mine st d) c
  ∧ mark_safe (mark_safe st c) d = mark_safe (mark_safe st d) c
  ∧ mark_mine (mark_mine st c) d = mark_mine (mark_mine st d) c
  ∧ mark_safe (mark_safe st c) c = mark_safe st c
  ∧ mark_mine (mark_mine st c) c = mark_mine st c.
Proof.
  intros Hne. unfold mark_mine, mark_safe. simpl.
  pose proof (λ s, sentence_marks_commute s c d Hne) as Hs.
  pose proof (λ s, sentence_marks_again s c) as Ha.
  assert (∀ X : gset elem, {[d]} ∪ ({[c]} ∪ X) = {[c]} ∪ ({[d]} ∪ X)) as Hswap.
  { intros X. by rewrite !(assoc_L (∪)), (comm_L (∪) {[d]}). }
  assert (∀ X : gset elem, {[c]} ∪ ({[c]} ∪ X) = {[c]} ∪ X) as Hsame.
  { intros X. by rewrite (assoc_L (∪)), union_idemp_L. }
  assert (∀ (f g h k : Sentence.t → Sentence.t) (l : list Sentence.t),
            (∀ s, f (g s) = h (k s)) → f <$> (g <$> l) = h <$> (k <$> l)) as Hmap.
  { intros f g h k l Hfg. rewrite <- !list_fmap_compose.
    apply list_fmap_ext. intros i s _. apply Hfg. }
  assert (∀ (f g : Sentence.t → Sentence.t) (l : list Sentence.t),
            (∀ s, f (g s) = g s) → f <$> (g <$> l) = g <$> l) as Hmap1.
  { intros f g l Hfg. rewrite <- list_fmap_compose.
    apply list_fmap_ext. intros i s _. apply Hfg. }
  split; [|split; [|split; [|split]]].
  - f_equal. apply Hmap. intros s. apply Hs.
  - f_equal; [apply Hswap|]. apply Hmap. intros s. apply Hs.
  - f_equal; [apply Hswap|]. apply Hmap. intros s. apply Hs.
  - f_equal; [apply Hsame|]. apply Hmap1. intros s. apply Ha.
  - f_equal; [apply Hsame|]. apply Hmap1. intros s. apply Ha.
Qed.

Lemma marks_commute_witness :
  mark_mine (mark_safe kb_chain cell_C) cell_D
  = mark_safe (mark_mine kb_chain cell_D) cell_C
  ∧ mark_safe (mark_safe kb_chain cell_C) cell_D
    = mark_safe (mark_safe kb_chain cell_D) cell_C
  ∧ mark_mine (mark_mine kb_chain cell_C) cell_D
    = mark_mine (mark_mine kb_chain cell_D) cell_C
  ∧ mark_safe (mark_safe kb_chain cell_C) cell_C = mark_safe kb_chain cell_C
  ∧ mark_mine (mark_mine kb_chain cell_C) cell_C = mark_mine kb_chain cell_C.
Proof. apply (marks_commute kb_chain cell_C cell_D). discriminate. Defined.

Lemma sentence_mark_safe_effect s c :
  Sentence.cells (Sentence.mark_safe s c) = Sentence.cells s ∖ {[c]}
  ∧ Sentence.count (Sentence.mark_safe s c) = Sentence.count s.
Proof. split; [apply cells_mark_safe|apply count_mark_safe]. Qed.

Lemma sentence_mark_mine_effect s c :
  Sentence.cells (Sentence.mark_mine s c) = Sentence.cells s ∖ {[c]}
  ∧ Sentence.count (Sentence.mark_mine s c)
    = Sentence.count s - (if decide (c ∈ Sentence.cells s) then 1 else 0).
Proof.
  split; [apply cells_mark_mine|].
  unfold Sentence.mark_mine. case_decide; simpl; lia.
Qed.

(** [mark_safe] and [mark_mine] keep every sentence at its place and take
    the cell, and no other value, out of it; [mark_safe] leaves the count
    of each sentence as it is and [mark_mine] lowers by one the count of
    the sentences that held the cell.  The cell is in the set afterwards,
    and the other set, the moves and the board are as before. *)
Theorem marks_purge st c :
  (Forall2 (λ s s', Sentence.cells s' = Sentence.cells s ∖ {[c]}
                    ∧ Sentence.count s' = Sentence.count s)
           (knowledge st) (knowledge (mark_safe st c))
   ∧ safes (mark_safe st c) = {[c]} ∪ safes st
   ∧ mines (mark_safe st c) = mines st
   ∧ moves_made (mark_safe st c) = moves_made st
   ∧ height (mark_safe st c) = height st
   ∧ width (mark_safe st c) = width st)
  ∧ (Forall2 (λ s s', Sentence.cells s' = Sentence.cells s ∖ {[c]}
                      ∧ Sentence.count s'
                        = Sentence.count s
                          - (if decide (c ∈ Sentence.cells s) then 1 else 0))
             (knowledge st) (knowledge (mark_mine st c))
     ∧ mines (mark_mine st c) = {[c]} ∪ mines st
     ∧ safes (mark_mine st c) = safes st
     ∧ moves_made (mark_mine st c) = moves_made st
     ∧ height (mark_mine st c) = height st
     ∧ width (mark_mine st c) = width st).
Proof.
  split.
  - split; [|done]. simpl.
    apply Forall2_fmap_r, Forall_Forall2_diag, Forall_forall.
    intros s _. apply sentence_mark_safe_effect.
  - split; [|done]. simpl.
    apply Forall2_fmap_r, Forall_Forall2_diag, Forall_forall.
    intros s _. apply sentence_mark_mine_effect.
Qed.

Lemma mark_mine_sound M st c : sound M st → c ∈ M → sound M (mark_mine st c).
Proof.
  intros (Hm & Hs & Hk) Hc. unfold sound. simpl. rewrite Forall_fmap.
  split; [set_solver|]. split; [done|].
  eapply Forall_impl; [exact Hk|]. intros s Hs'. simpl.
  by apply sentence_mark_mine_true.
Qed.

Lemma mark_safe_sound M st c : sound M st → c ∉ M → sound M (mark_safe st c).
Proof.
  intros (Hm & Hs & Hk) Hc. unfold sound. simpl. rewrite Forall_fmap.
  split; [done|]. split; [set_solver|].
  eapply Forall_impl; [exact Hk|]. intros s Hs'. simpl.
  by apply sentence_mark_safe_true.
Qed.

(** A right mark keeps the knowledge base sound: marking a mine as a mine,
    or a cell without a mine as safe. *)
Theorem marks_keep_sound M st c :
  sound M st →
  (c ∈ M → sound M (mark_mine st c))
  ∧ (c ∉ M → sound M (mark_safe st c)).
Proof.
  intros Hsound. split; intros Hc.
  - by apply mark_mine_sound.
  - by apply mark_safe_sound.
Qed.

(** ** The sweep: what it leaves behind *)

#[local] Instance same_frame_preorder : PreOrder same_frame.
Proof.
  split; unfold same_frame; [by intros ?|].
  intros ??? (-> & -> & ->) (-> & -> & ->). done.
Qed.

#[local] Instance not_longer_preorder : PreOrder not_longer.
Proof. split; unfold not_longer; [intros ?|intros ???]; lia. Qed.

#[local] Instance grows_acc_preorder : PreOrder grows_acc.
Proof.
  split; unfold grows_acc; [by intros ?|]. intros ??? H1 H2. by etrans.
Qed.

Lemma list_remove_length s l : (length (list_remove s l) ≤ length l)%nat.
Proof.
  induction l as [|y l IH]; simpl; [done|]. case_decide; simpl; lia.
Qed.

(** A loop that keeps a preorder reaches every element of its list, from
    a state that follows the first and before one that precedes the
    last. *)
Lemma for_each_visits {S A : Type} (body : S → A → option S)
    (R : relation S) `{!PreOrder R} l x :
  (∀ s y s', body s y = Some s' → R s s') →
  x ∈ l →
  ∀ s s', for_each body s l = Some s' →
  ∃ a a', R s a ∧ body a x = Some a' ∧ R a' s'.
Proof.
  intros Hbody. induction l as [|y l IH]; intros Hx s s' Hrun.
  - by apply elem_of_nil in Hx.
  - simpl in Hrun. destruct (body s y) as [s1|] eqn:Hy; [|done].
    assert (R s1 s') as Htail.
    { revert Hrun. apply (for_each_inv body (R s1)); [|done].
      intros a z a' _ Ha Hz. etrans; [done|]. by eapply Hbody. }
    apply elem_of_cons in Hx as [->|Hx].
    + exists s, s1. done.
    + destruct (IH Hx s1 s' Hrun) as (a & a' & Ha & Hb & Ha').
      exists a, a'. split; [|done]. etrans; [|done]. by eapply Hbody.
Qed.

Lemma settled_iff s :
  settled s ↔
  Sentence.cells s ≠ ∅
  ∧ Sentence.count s ≠ 0
  ∧ Sentence.count s ≠ Z.of_nat (size (Sentence.cells s)).
Proof.
  unfold settled, Sentence.known_mines, Sentence.known_safes.
  split.
  - intros (Hne & Hm & Hs). split; [done|]. split.
    + intros H0. rewrite decide_True in Hs by done. simpl in Hs.
      by apply bool_decide_eq_false in Hs.
    + intros Hn. rewrite decide_True in Hm by done. simpl in Hm.
      by apply bool_decide_eq_false in Hm.
  - intros (Hne & H0 & Hn). split; [done|].
    by rewrite !decide_False.
Qed.

Section Sweep.
Variable set_iter : gset elem → list elem.
Hypothesis set_iter_perm : ∀ X, set_iter X ≡ₚ elements X.

Lemma check_knowledge_fuel_grows fuel st r :
  check_knowledge_fuel set_iter fuel st = Some r → grows st r.1.
Proof.
  apply (check_knowledge_fuel_preserves _ grows).
  - done.
  - apply grows_mark_mine.
  - apply grows_mark_safe.
Qed.

(** The marks of one sentence put every cell of the set into the set of
    the mark. *)
Lemma marks_reach recur mark (known : MinesweeperAI → gset elem) X acc acc' :
  (∀ st r, recur st = Some r → grows st r.1) →
  (∀ st c, grows st (mark st c)) →
  (∀ st c, c ∈ known (mark st c)) →
  (∀ st st', grows st st' → known st ⊆ known st') →
  for_each (mark_and_recheck recur mark) acc (set_iter X) = Some acc' →
  X ⊆ known acc'.1.
Proof.
  intros Hrec Hmark Hin Hknown Hrun c Hc.
  apply (elem_of_set_iter _ set_iter_perm) in Hc.
  assert (∀ a y a', mark_and_recheck recur mark a y = Some a' → grows_acc a a')
    as Hbody.
  { intros [a na] y [a' na'] Hy. unfold grows_acc. simpl.
    unfold mark_and_recheck in Hy. simpl in Hy.
    destruct (recur (mark a y)) as [[a1 k]|] eqn:Hr; [|done]. simplify_eq.
    etrans; [apply Hmark|]. by apply Hrec in Hr. }
  destruct (for_each_visits _ grows_acc _ c Hbody Hc acc acc' Hrun)
    as ([st n] & [st' n'] & _ & Hstep & Hafter).
  unfold mark_and_recheck in Hstep. simpl in *.
  destruct (recur (mark st c)) as [[st1 k]|] eqn:Hr; [|done]. simplify_eq.
  apply Hrec in Hr. simpl in Hr.
  apply (Hknown st' acc'.1 Hafter), (Hknown _ _ Hr), Hin.
Qed.

Lemma sweep_sentence_grows recur acc s acc' :
  (∀ st r, recur st = Some r → grows st r.1) →
  sweep_sentence set_iter recur acc s = Some acc' → grows acc.1 acc'.1.
Proof.
  intros Hrec. apply (sweep_sentence_preserves _ grows); [done| | |done].
  - apply grows_mark_mine.
  - apply grows_mark_safe.
Qed.

Lemma sweep_sentence_concludes recur acc s acc' :
  (∀ st r, recur st = Some r → grows st r.1) →
  sweep_sentence set_iter recur acc s = Some acc' →
  (Sentence.count s = Z.of_nat (size (Sentence.cells s)) →
   Sentence.cells s ⊆ mines acc'.1)
  ∧ (Sentence.count s = 0 → Sentence.cells s ⊆ safes acc'.1).
Proof.
  intros Hrec. unfold sweep_sentence.
  set (acc0 := if decide (size (Sentence.cells s) = 0%nat) then _ else acc).
  clearbody acc0.
  destruct (decide (Sentence.cells s = ∅)) as [Hempty|Hne].
  { intros _. rewrite Hempty. set_solver. }
  destruct (if truthy (Sentence.known_mines s) then _ else Some acc0)
    as [acc1|] eqn:H1; [|done].
  intros H2. split.
  - intros Hcount. unfold Sentence.known_mines in H1.
    rewrite decide_True in H1 by done. simpl in H1.
    rewrite bool_decide_eq_true_2 in H1 by done.
    apply (marks_reach _ _ mines) in H1; [|done|apply grows_mark_mine| |].
    + assert (grows acc1.1 acc'.1) as [_ Hg]; [|set_solver].
      destruct (truthy (Sentence.known_safes s)); [|by simplify_eq].
      revert H2. apply (marks_preserve grows); [done|apply grows_mark_safe].
    + intros. simpl. set_solver.
    + by intros ?? [_ ?].
  - intros Hcount. unfold Sentence.known_safes in H2.
    rewrite decide_True in H2 by done. simpl in H2.
    rewrite bool_decide_eq_true_2 in H2 by done.
    apply (marks_reach _ _ safes) in H2; [done|done|apply grows_mark_safe| |].
    + intros. simpl. set_solver.
    + by intros ?? [? _].
Qed.

Lemma check_knowledge_fuel_concludes fuel st r s :
  check_knowledge_fuel set_iter fuel st = Some r →
  s ∈ knowledge st →
  (Sentence.count s = Z.of_nat (size (Sentence.cells s)) →
   Sentence.cells s ⊆ mines r.1)
  ∧ (Sentence.count s = 0 → Sentence.cells s ⊆ safes r.1).
Proof.
  destruct fuel as [|fuel]; [done|]. simpl. unfold check_knowledge_body.
  destruct (for_each _ _ _) as [[st' k]|] eqn:Hrun; [|done].
  intros [= <-] Hs. simpl.
  pose proof (check_knowledge_fuel_grows fuel) as Hrec.
  assert (∀ a y a',
    sweep_sentence set_iter (check_knowledge_fuel set_iter fuel) a y = Some a' →
    grows_acc a a') as Hbody.
  { intros ????. by eapply sweep_sentence_grows. }
  destruct (for_each_visits _ grows_acc _ s Hbody Hs _ _ Hrun)
    as (a & a' & _ & Hstep & [Hsafes Hmines]).
  apply sweep_sentence_concludes in Hstep as [Hm Hsf]; [|done]. simpl in *.
  split; intros Hc; [specialize (Hm Hc)|specialize (Hsf Hc)]; set_solver.
Qed.

(** The sweep keeps the knowledge base sound. *)
Lemma check_knowledge_fuel_sound M fuel st r :
  sound M st →
  check_knowledge_fuel set_iter fuel st = Some r → sound M r.1.
Proof.
  revert st r. induction fuel as [|fuel IH]; intros st r Hsound; [done|].
  simpl. unfold check_knowledge_body.
  destruct (for_each _ _ _) as [[st' k]|] eqn:Hrun; [|done].
  intros [= <-]. simpl. revert Hrun.
  apply (for_each_inv _ (λ a, sound M a.1)); [|done].
  intros acc s acc' Hs Hacc. unfold sweep_sentence.
  assert (true_of M s) as Htrue.
  { destruct Hsound as (_ & _ & Hk). rewrite Forall_forall in Hk. by apply Hk. }
  pose proof (λ X, known_mines_are_mines M s X Htrue) as Hmines.
  pose proof (λ X, known_safes_are_safe M s X Htrue) as Hsafes.
  set (acc0 := if decide (size (Sentence.cells s) = 0%nat) then _ else acc).
  assert (sound M acc0.1) as H0.
  { subst acc0. case_decide; [|done]. destruct Hacc as (? & ? & Hk).
    split; [done|]. split; [done|]. simpl. rewrite Forall_forall in *.
    intros x Hx. by apply Hk, (list_remove_subseteq s). }
  clearbody acc0.
  assert (∀ mark o a a',
    (∀ X, o = Some X → ∀ c st, c ∈ X → sound M st → sound M (mark st c)) →
    sound M a.1 →
    (if truthy o
     then for_each (mark_and_recheck (check_knowledge_fuel set_iter fuel) mark)
                   a (set_iter (default ∅ o))
     else Some a) = Some a' →
    sound M a'.1) as Hmarks.
  { intros mark o a a' Hmark Ha. destruct (truthy o) eqn:Ht; [|by intros [= <-]].
    apply truthy_Some in Ht as (X & -> & _). simpl.
    apply (for_each_inv _ (λ a, sound M a.1)); [|done].
    intros [b nb] c [b' nb'] Hc Hb. unfold mark_and_recheck. simpl in *.
    destruct (check_knowledge_fuel _ _ _) as [[b1 k1]|] eqn:Hr; [|done].
    intros [= <- <-]. apply (IH _ _ (Hmark X eq_refl c b
      (proj1 (elem_of_set_iter _ set_iter_perm _ _) Hc) Hb) Hr). }
  destruct (if truthy (Sentence.known_mines s) then _ else Some acc0)
    as [acc1|] eqn:H1; [|done].
  apply Hmarks in H1; [|intros X HX c b Hc Hb|done].
  2:{ apply mark_mine_sound; [done|]. by apply (Hmines X). }
  intros H2. apply Hmarks in H2; [done|intros X HX c b Hc Hb|done].
  apply mark_safe_sound; [done|]. specialize (Hsafes X HX). set_solver.
Qed.

End Sweep.

(** The state that the sweep returns holds no sentence without cells and
    none from which [known_mines] or [known_safes] would conclude: every
    count differs from 0 and from the number of cells. *)
Theorem check_knowledge_settles set_iter st :
  (∀ X, set_iter X ≡ₚ elements X) →
  ∃ st', check_knowledge set_iter st = Some st'
         ∧ Forall (λ s, Sentence.cells s ≠ ∅
                        ∧ Sentence.count s ≠ 0
                        ∧ Sentence.count s ≠ Z.of_nat (size (Sentence.cells s)))
                  (knowledge st').
Proof.
  intros Hperm. unfold check_knowledge.
  destruct (check_knowledge_sweeps_returns set_iter Hperm st) as [r Hr].
  rewrite Hr. exists r.1. split; [done|].
  apply (check_knowledge_fuel_reaches_stable set_iter Hperm) in Hr.
  eapply Forall_impl; [exact Hr|]. intros s. by rewrite settled_iff.
Qed.

(** The trivial rules: for every sentence that is in the knowledge base
    when the sweep starts, if its count is the number of its cells they
    are all in [mines] when the sweep returns, and if its count is 0 they
    are all in [safes]. *)
Theorem check_knowledge_draws_conclusions set_iter st :
  (∀ X, set_iter X ≡ₚ elements X) →
  ∃ st', check_knowledge set_iter st = Some st'
         ∧ ∀ s, s ∈ knowledge st →
             (Sentence.count s = Z.of_nat (size (Sentence.cells s)) →
              Sentence.cells s ⊆ mines st')
             ∧ (Sentence.count s = 0 → Sentence.cells s ⊆ safes st').
Proof.
  intros Hperm. unfold check_knowledge.
  destruct (check_knowledge_sweeps_returns set_iter Hperm st) as [r Hr].
  rewrite Hr. exists r.1. split; [done|]. intros s Hs.
  by eapply check_knowledge_fuel_concludes.
Qed.

(** The sweep is sound: on a knowledge base that says nothing false about
    a set of mines it returns one that says nothing false either. *)
Theorem check_knowledge_keeps_sound set_iter M st :
  (∀ X, set_iter X ≡ₚ elements X) →
  sound M st →
  ∃ st', check_knowledge set_iter st = Some st' ∧ sound M st'.
Proof.
  intros Hperm Hsound. unfold check_knowledge.
  destruct (check_knowledge_sweeps_returns set_iter Hperm st) as [r Hr].
  rewrite Hr. exists r.1. split; [done|].
  by eapply check_knowledge_fuel_sound.
Qed.

Lemma check_knowledge_frame set_iter st st' :
  check_knowledge set_iter st = Some st' →
  same_frame st st' ∧ not_longer st st' ∧ pending st' ⊆ pending st.
Proof.
  unfold check_knowledge, check_knowledge_sweeps.
  destruct (check_knowledge_fuel _ _ _) as [r|] eqn:Hr; [|done].
  intros [= <-]. split; [|split].
  - revert Hr. by apply (check_knowledge_fuel_preserves _ same_frame).
  - revert Hr. apply (check_knowledge_fuel_preserves _ not_longer);
      unfold not_longer; simpl; intros.
    + apply list_remove_length.
    + by rewrite length_fmap.
    + by rewrite length_fmap.
  - by apply check_knowledge_fuel_shrinks in Hr.
Qed.

(** The sweep adds nothing: the board and the moves are as before, there
    are no more sentences than before, and no value occurs in a sentence
    that did not occur in one before. *)
Theorem check_knowledge_adds_nothing set_iter st :
  (∀ X, set_iter X ≡ₚ elements X) →
  ∃ st', check_knowledge set_iter st = Some st'
         ∧ height st' = height st ∧ width st' = width st
         ∧ moves_made st' = moves_made st
         ∧ (length (knowledge st') ≤ length (knowledge st))%nat
         ∧ pending st' ⊆ pending st.
Proof.
  intros Hperm.
  destruct (check_knowledge_returns set_iter Hperm st) as [st' Hr].
  exists st'. split; [done|].
  by apply check_knowledge_frame in Hr as ((? & ? & ?) & ? & ?).
Qed.

(** ** Subset inference: what it leaves alone *)

#[local] Instance same_sentences_preorder : PreOrder same_sentences.
Proof.
  split; unfold same_sentences.
  - intros st. apply Forall_Forall2_diag, Forall_forall. set_solver.
  - intros st1 st2 st3 H12 H23.
    eapply Forall2_trans; [|exact H12|exact H23].
    simpl. set_solver.
Qed.

Lemma same_sentences_fmap st f k :
  knowledge k = f <$> knowledge st →
  (∀ s, Sentence.cells (f s) ⊆ Sentence.cells s) →
  same_sentences st k.
Proof.
  intros Hk Hf. unfold same_sentences. rewrite Hk.
  apply Forall2_fmap_r, Forall_Forall2_diag, Forall_forall. intros s _. apply Hf.
Qed.

Lemma inference_same_sentences set_iter st :
  same_sentences st (inference set_iter st).
Proof.
  apply (inference_preserves set_iter same_sentences).
  - intros st0 j n. unfold same_sentences, set_count. simpl.
    apply Forall2_same_length_lookup_2; [by rewrite length_alter|].
    intros i s s' Hs Hs'. destruct (decide (i = j)) as [->|Hne].
    + rewrite list_lookup_alter_eq, Hs in Hs'. simpl in Hs'. by simplify_eq.
    + rewrite list_lookup_alter_ne, Hs in Hs' by done. by simplify_eq.
  - intros st0 c.
    apply (same_sentences_fmap st0 (λ s, Sentence.mark_mine s c)); [done|].
    intros s. rewrite cells_mark_mine. set_solver.
  - intros st0 c.
    apply (same_sentences_fmap st0 (λ s, Sentence.mark_safe s c)); [done|].
    intros s. rewrite cells_mark_safe. set_solver.
Qed.

Lemma inference_same_frame set_iter st : same_frame st (inference set_iter st).
Proof. by apply (inference_preserves set_iter same_frame). Qed.

(** [inference] keeps every sentence at its place in the list and only
    takes cells out of it: it adds no sentence, removes none, and puts no
    value into one; the board and the moves are as before. *)
Theorem inference_keeps_sentences set_iter st :
  let st' := inference set_iter st in
  Forall2 (λ s s', Sentence.cells s' ⊆ Sentence.cells s)
          (knowledge st) (knowledge st')
  ∧ length (knowledge st') = length (knowledge st)
  ∧ height st' = height st ∧ width st' = width st
  ∧ moves_made st' = moves_made st.
Proof.
  simpl. split; [apply inference_same_sentences|].
  split; [apply inference_length|]. apply inference_same_frame.
Qed.

Lemma foldl_fixed {A B : Type} (f : A → B → A) (l : list B) a :
  (∀ x, x ∈ l → f a x = a) → foldl f a l = a.
Proof.
  induction l as [|x l IH]; intros Hf; simpl; [done|].
  rewrite Hf by (by left). apply IH. intros y Hy. apply Hf. by right.
Qed.

Lemma truthy_no_cells n :
  truthy (Sentence.known_mines (Sentence.mk ∅ n)) = false
  ∧ truthy (Sentence.known_safes (Sentence.mk ∅ n)) = false.
Proof. by apply truthy_empty_cells. Qed.

Lemma set_count_same st j s :
  knowledge st !! j = Some s → set_count st j (Sentence.count s) = st.
Proof.
  intros Hs. unfold set_count, set_knowledge. destruct st as [h w mm mi sa k].
  simpl in *. f_equal. apply list_eq. intros i.
  destruct (decide (j = i)) as [<-|Hne].
  - rewrite list_lookup_alter_eq, Hs. simpl. by destruct s.
  - by rewrite list_lookup_alter_ne.
Qed.

(** [inference] changes nothing when no sentence has its cells among
    those of another sentence: a sentence compared with itself gives the
    empty set, from which nothing is concluded. *)
Theorem inference_without_subsets set_iter st :
  (∀ i j s1 s2, i ≠ j →
     knowledge st !! i = Some s1 → knowledge st !! j = Some s2 →
     Sentence.cells s1 ⊈ Sentence.cells s2) →
  inference set_iter st = st.
Proof.
  intros Hno. unfold inference.
  apply foldl_fixed. intros i _. apply foldl_fixed. intros j _.
  unfold inference_pair.
  destruct (knowledge st !! i) as [s1|] eqn:H1; [|done].
  destruct (knowledge st !! j) as [s2|] eqn:H2; [|done].
  case_decide as Hsub; [|done].
  destruct (decide (i = j)) as [->|Hne]; [|by destruct (Hno i j s1 s2)].
  simplify_eq. rewrite difference_diag_L.
  destruct (truthy_no_cells (Sentence.count s1)) as [-> ->].
  by apply set_count_same.
Qed.

Lemma inference_without_subsets_witness :
  inference elements kb_all_mines = kb_all_mines.
Proof.
  apply (inference_without_subsets elements).
  intros [|[|i]] [|[|j]] s1 s2 Hne H1 H2; simpl in *; simplify_eq; try done.
  - eapply (bool_decide_eq_false_1 _). vm_compute. reflexivity.
  - eapply (bool_decide_eq_false_1 _). vm_compute. reflexivity.
Defined.

(** ** What [add_knowledge] records *)

Lemma pending_app st k :
  pending (set_knowledge st (knowledge st ++ k))
  = pending st ∪ ⋃ (Sentence.cells <$> k).
Proof. unfold pending. simpl. by rewrite fmap_app, union_list_app_L. Qed.

Lemma inference_shrinks set_iter st : pending (inference set_iter st) ⊆ pending st.
Proof.
  apply (inference_preserves set_iter shrinks (PreOrder0 := shrinks_preorder));
    unfold shrinks.
  - intros st0 j n x. rewrite !elem_of_pending. simpl.
    intros (s & Hs & Hx). apply list_elem_of_lookup in Hs as [i Hi].
    destruct (decide (j = i)) as [<-|Hne].
    + rewrite list_lookup_alter_eq in Hi.
      destruct (knowledge st0 !! j) as [s0|] eqn:H0; [|done].
      simpl in Hi. simplify_eq. exists s0. split; [|done].
      by eapply list_elem_of_lookup_2.
    + rewrite list_lookup_alter_ne in Hi by done. exists s. split; [|done].
      by eapply list_elem_of_lookup_2.
  - intros. rewrite pending_mark_mine. set_solver.
  - intros. rewrite pending_mark_safe. set_solver.
Qed.

(** [add_knowledge] returns a state in which the cell is a move made and
    is safe, and occurs in no sentence; nothing else is added to the
    moves, and the board is as before. *)
Theorem add_knowledge_records_move set_iter st cell count :
  (∀ X, set_iter X ≡ₚ elements X) →
  ∃ st', add_knowledge set_iter st cell count = Some st'
         ∧ moves_made st' = {[cell_elem cell]} ∪ moves_made st
         ∧ cell_elem cell ∈ safes st'
         ∧ (cell_elem cell ∉ pending st')
         ∧ height st' = height st ∧ width st' = width st.
Proof.
  intros Hperm. unfold add_knowledge.
  set (stored := store_sentence set_iter st cell count).
  assert (height stored = height st ∧ width stored = width st
          ∧ moves_made stored = {[cell_elem cell]} ∪ moves_made st
          ∧ cell_elem cell ∈ safes stored
          ∧ cell_elem cell ∉ pending stored) as (Hh & Hw & Hm & Hs & Hp).
  { subst stored. unfold store_sentence.
    assert (cell_elem cell ∉ pending (record_move st cell)) as Hrec.
    { unfold record_move. rewrite pending_mark_safe. set_solver. }
    case_decide; [|unfold record_move in *; simpl; repeat split; set_solver].
    repeat split; try (unfold record_move; simpl; set_solver).
    rewrite pending_app. simpl. rewrite union_empty_r_L.
    rewrite (stored_sentence_cells _ Hperm). intros [?|Hn]%elem_of_union; [done|].
    apply elem_of_return_neighbors in Hn
      as [?|[?|(rows & cols & Heq & _ & _ & _ & _ & Hne)]]; [done..|].
    unfold cell_elem in Heq. simplify_eq. by destruct cell. }
  clearbody stored.
  destruct (check_knowledge_returns set_iter Hperm stored) as [st1 Hck].
  destruct (check_knowledge_frame set_iter stored st1 Hck)
    as ((Hh1 & Hw1 & Hm1) & _ & Hp1).
  rewrite Hck. eexists. split; [done|].
  destruct (inference_same_frame set_iter st1) as (Hh2 & Hw2 & Hm2).
  pose proof (inference_shrinks set_iter st1) as Hp2.
  pose proof (grows_inference set_iter st1) as [Hs2 _].
  apply grows_check_knowledge in Hck as [Hs1 _].
  simpl in *. rewrite Hm2, Hm1, Hm, Hh2, Hh1, Hh, Hw2, Hw1, Hw.
  repeat split; set_solver.
Qed.

Lemma add_knowledge_records_move_witness :
  ∃ st', add_knowledge elements kb_known (1, 1) 1 = Some st'
         ∧ moves_made st' = {[cell_elem (1, 1)]} ∪ moves_made kb_known
         ∧ cell_elem (1, 1) ∈ safes st'
         ∧ (cell_elem (1, 1) ∉ pending st')
         ∧ height st' = height kb_known ∧ width st' = width kb_known.
Proof. apply (add_knowledge_records_move elements), elements_perm. Defined.

(** ** The sentence that is stored *)

Lemma size_list_to_set_le `{Countable K} (l : list K) :
  (size (list_to_set l : gset K) ≤ length l)%nat.
Proof.
  induction l as [|x l IH]; [done|]. simpl.
  rewrite size_union_alt, size_singleton.
  assert (size (list_to_set l ∖ {[x]} : gset K) ≤ size (list_to_set l : gset K))%nat.
  { apply subseteq_size. set_solver. }
  lia.
Qed.

Lemma length_filter_members `{Countable K} (M : gset K) (l : list K) :
  NoDup l →
  length (filter (λ c, c ∈ M) l) = size (list_to_set l ∩ M : gset K).
Proof.
  induction 1 as [|x l Hx Hnd IH]; simpl.
  - by rewrite intersection_empty_l_L, size_empty.
  - rewrite filter_cons. case_decide as HM; simpl.
    + rewrite IH.
      replace (({[x]} ∪ list_to_set l) ∩ M) with ({[x]} ∪ (list_to_set l ∩ M) : gset K)
        by set_solver.
      rewrite (size_union ({[x]} : gset K) (list_to_set l ∩ M)).
      * by rewrite size_singleton.
      * intros y Hy (Hl & _)%elem_of_intersection.
        apply elem_of_singleton in Hy as ->. by apply elem_of_list_to_set in Hl.
    + rewrite IH. f_equal. set_solver.
Qed.

Section Stored.
Variable set_iter : gset elem → list elem.
Hypothesis set_iter_perm : ∀ X, set_iter X ≡ₚ elements X.

Lemma set_iter_NoDup X : NoDup (set_iter X).
Proof. rewrite set_iter_perm. apply NoDup_elements. Qed.

Lemma list_to_set_set_iter X : list_to_set (set_iter X) = X.
Proof.
  apply set_eq. intros x.
  by rewrite elem_of_list_to_set, (elem_of_set_iter _ set_iter_perm).
Qed.

Lemma new_sentence_count st cell count :
  Sentence.count (new_sentence set_iter st cell count)
  = count - Z.of_nat (size (return_neighbors st cell ∩ mines st)).
Proof.
  unfold new_sentence.
  assert (∀ l (X : gset elem) n,
    (foldl (λ '(new_cells, cont_deepcpy) cl,
       let cont_deepcpy :=
         if decide (cl ∈ mines st) then cont_deepcpy - 1 else cont_deepcpy in
       let new_cells : gset elem :=
         if bool_decide (cl ∉ mines st) || bool_decide (safes st ≠ ∅)
         then {[cl]} ∪ new_cells else new_cells in
       (new_cells, cont_deepcpy)) (X, n) l).2
    = n - Z.of_nat (length (filter (λ c, c ∈ mines st) l))) as Hfold.
  { induction l as [|c l IH]; intros X n; simpl; [lia|].
    rewrite IH, filter_cons. destruct (decide (c ∈ mines st)); simpl; lia. }
  specialize (Hfold (set_iter (return_neighbors st cell)) ∅ count).
  destruct (foldl _ _ _) as [new_cells cont]. simpl in *. subst cont.
  rewrite length_filter_members by apply set_iter_NoDup.
  by rewrite list_to_set_set_iter.
Qed.

End Stored.

Lemma store_sentence_knowledge set_iter st cell count :
  (∀ X, set_iter X ≡ₚ elements X) →
  knowledge (store_sentence set_iter st cell count)
  = ((λ s, Sentence.mark_safe s (cell_elem cell)) <$> knowledge st)
    ++ [Sentence.mk (return_neighbors st cell)
          (count - Z.of_nat (size (return_neighbors st cell ∩ mines st)))].
Proof.
  intros Hperm. unfold store_sentence.
  pose proof (stored_sentence_cells set_iter Hperm st cell count) as Hcells.
  pose proof (new_sentence_count set_iter Hperm (record_move st cell) cell count)
    as Hcount.
  destruct (new_sentence set_iter (record_move st cell) cell count) as [X n].
  simpl in *. subst X n. rewrite decide_True.
  - done.
  - assert (size (return_neighbors st cell) ≠ 0%nat); [|lia].
    intros H0. apply size_empty_iff in H0.
    assert (EInt cell.1 ∈ return_neighbors st cell) as Hin
      by (apply elem_of_return_neighbors; by left).
    set_solver.
Qed.

Lemma store_sentence_sets set_iter st cell count :
  safes (store_sentence set_iter st cell count) = {[cell_elem cell]} ∪ safes st
  ∧ mines (store_sentence set_iter st cell count) = mines st
  ∧ moves_made (store_sentence set_iter st cell count)
    = {[cell_elem cell]} ∪ moves_made st.
Proof. unfold store_sentence, record_move. by case_decide. Qed.

(** [add_knowledge] always stores a sentence, after it has recorded the
    move and taken the cell out of the sentences it holds: the set that
    [return_neighbors] gives is never empty, and all of it goes into the
    sentence, the count being lowered by the number of its members that
    are known mines. *)
Theorem store_sentence_appends set_iter st cell count :
  (∀ X, set_iter X ≡ₚ elements X) →
  let stored := store_sentence set_iter st cell count in
  knowledge stored
  = ((λ s, Sentence.mark_safe s (cell_elem cell)) <$> knowledge st)
    ++ [Sentence.mk (return_neighbors st cell)
          (count - Z.of_nat (size (return_neighbors st cell ∩ mines st)))]
  ∧ safes stored = {[cell_elem cell]} ∪ safes st
  ∧ mines stored = mines st
  ∧ moves_made stored = {[cell_elem cell]} ∪ moves_made st.
Proof.
  intros Hperm. simpl. split; [by apply store_sentence_knowledge|].
  apply store_sentence_sets.
Qed.

Lemma store_sentence_appends_witness :
  let stored := store_sentence elements kb_known (1, 1) 1 in
  knowledge stored
  = ((λ s, Sentence.mark_safe s (cell_elem (1, 1))) <$> knowledge kb_known)
    ++ [Sentence.mk (return_neighbors kb_known (1, 1))
          (1 - Z.of_nat (size (return_neighbors kb_known (1, 1) ∩ mines kb_known)))]
  ∧ safes stored = {[cell_elem (1, 1)]} ∪ safes kb_known
  ∧ mines stored = mines kb_known
  ∧ moves_made stored = {[cell_elem (1, 1)]} ∪ moves_made kb_known.
Proof. apply (store_sentence_appends elements), elements_perm. Defined.

(** ** The size of a neighbourhood *)

Lemma return_neighbors_size st cell :
  (size (return_neighbors st cell) ≤ 10)%nat
  ∧ (size (return_neighbors st cell ∖ {[EInt cell.1; EInt cell.2]}) ≤ 8)%nat
  ∧ cell_elem cell ∉ return_neighbors st cell.
Proof.
  destruct cell as [r c]. simpl.
  set (around := [ECell (r - 1) (c - 1); ECell (r - 1) c; ECell (r - 1) (c + 1);
                  ECell r (c - 1); ECell r (c + 1);
                  ECell (r + 1) (c - 1); ECell (r + 1) c; ECell (r + 1) (c + 1)]).
  assert (∀ e, e ∈ return_neighbors st (r, c) →
               e = EInt r ∨ e = EInt c ∨ e ∈ around) as Hin.
  { intros e He. apply elem_of_return_neighbors in He
      as [->|[->|(rows & cols & -> & _ & _ & Hr & Hc & Hne)]]; [by left|by right; left|].
    right; right. simpl in *.
    assert (rows = r - 1 ∨ rows = r ∨ rows = r + 1) as Hrows by lia.
    assert (cols = c - 1 ∨ cols = c ∨ cols = c + 1) as Hcols by lia.
    subst around.
    destruct Hrows as [->|[->| ->]], Hcols as [->|[->| ->]];
      try done; set_solver. }
  split; [|split].
  - etrans; [|apply (size_list_to_set_le (EInt r :: EInt c :: around))].
    apply subseteq_size. intros e He. apply elem_of_list_to_set.
    destruct (Hin e He) as [->|[->|?]]; set_solver.
  - etrans; [|apply (size_list_to_set_le around)].
    apply subseteq_size. intros e He. apply elem_of_list_to_set.
    apply elem_of_difference in He as [He Hne].
    destruct (Hin e He) as [->|[->|?]]; [set_solver..|done].
  - unfold cell_elem. simpl. intros He.
    apply elem_of_return_neighbors in He
      as [?|[?|(rows & cols & Heq & _ & _ & _ & _ & Hne)]]; [done..|].
    simpl in *. by simplify_eq.
Qed.

(** [return_neighbors] returns the two coordinates of the cell and the
    cells of the board within one row and one column of it, the cell
    itself left out, and nothing else: at most ten values, at most eight
    of them besides the coordinates. *)
Theorem return_neighbors_spec st cell :
  (∀ e, e ∈ return_neighbors st cell ↔
        e = EInt cell.1 ∨ e = EInt cell.2
        ∨ ∃ rows cols, e = ECell rows cols ∧ adjacent st cell rows cols)
  ∧ (size (return_neighbors st cell) ≤ 10)%nat
  ∧ (size (return_neighbors st cell ∖ {[EInt cell.1; EInt cell.2]}) ≤ 8)%nat
  ∧ cell_elem cell ∉ return_neighbors st cell.
Proof.
  split; [intros e; apply elem_of_return_neighbors|].
  apply return_neighbors_size.
Qed.

(** ** Random moves that find nothing *)

Lemma make_random_move_loop_misses randrange st max_moves draw :
  0 < height st → 0 < width st →
  (∀ k, (k < max_moves)%nat →
     ECell (randrange (draw + 2 * k)%nat (height st))
           (randrange (S (draw + 2 * k)) (width st))
     ∈ moves_made st ∪ mines st) →
  make_random_move_loop randrange st max_moves draw = (Returned None, max_moves).
Proof.
  intros Hh Hw. revert draw.
  induction max_moves as [|m IH]; intros draw Hmiss; simpl; [done|].
  unfold py_randrange. rewrite !decide_True by done.
  pose proof (Hmiss 0%nat ltac:(lia)) as H0.
  replace (draw + 2 * 0)%nat with draw in H0 by lia.
  rewrite decide_False by set_solver.
  rewrite IH; [done|]. intros k Hk.
  replace (S (S draw) + 2 * k)%nat with (draw + 2 * S k)%nat by lia.
  apply Hmiss. lia.
Qed.

(** Nothing returned does not mean that no cell is left: when every draw
    falls on a cell that is played or a known mine, [make_random_move]
    gives up after [width * height] attempts, whatever the other cells
    are. *)
Theorem make_random_move_gives_up randrange st draw :
  0 < height st → 0 < width st →
  (∀ k, (k < Z.to_nat (width st * height st))%nat →
     ECell (randrange (draw + 2 * k)%nat (height st))
           (randrange (S (draw + 2 * k)) (width st))
     ∈ moves_made st ∪ mines st) →
  make_random_move randrange st draw
  = (Returned None, Z.to_nat (width st * height st)).
Proof. intros. by apply make_random_move_loop_misses. Qed.

Lemma make_random_move_gives_up_witness :
  make_random_move zero_randrange kb_corner_played 0 = (Returned None, 4%nat)
  ∧ eligible kb_corner_played 0 1.
Proof.
  split.
  - apply (make_random_move_gives_up zero_randrange kb_corner_played 0); [done..|].
    intros k _. unfold zero_randrange. vm_compute. reflexivity.
  - unfold eligible. repeat split; try done; vm_compute; done.
Defined.

(** On a board of no cells nothing is drawn and nothing returned; when
    both sides are negative the loop is entered and the first call of
    [randrange] raises. *)
Theorem make_random_move_without_cells randrange st draw :
  (width st * height st <= 0 →
   make_random_move randrange st draw = (Returned None, 0%nat))
  ∧ (0 < width st * height st → height st < 0 →
     make_random_move randrange st draw = (Raised, 1%nat)).
Proof.
  unfold make_random_move. split.
  - intros Hle. by replace (Z.to_nat (width st * height st)) with 0%nat by lia.
  - intros Hpos Hneg.
    destruct (Z.to_nat (width st * height st)) as [|m] eqn:Hm; [lia|].
    simpl. unfold py_randrange. by rewrite decide_False by lia.
Qed.

(** ** The game: indexing *)

Lemma py_position_in_range {A : Type} (l : list A) i :
  0 <= i < Z.of_nat (length l) → py_position l i = Some (Z.to_nat i).
Proof. intros Hi. unfold py_position. by rewrite decide_True. Qed.

Lemma py_index_in_range {A : Type} (l : list A) i :
  0 <= i < Z.of_nat (length l) → py_index l i = l !! Z.to_nat i.
Proof. intros Hi. unfold py_index. by rewrite py_position_in_range. Qed.

(** Python's indices: an index from [-len(l)] to [-1] reads the list from
    its end, and one outside [-len(l) .. len(l) - 1] raises. *)
Theorem py_index_spec {A : Type} (l : list A) i :
  (0 <= i < Z.of_nat (length l) → py_index l i = l !! Z.to_nat i)
  ∧ (- Z.of_nat (length l) <= i < 0 →
     py_index l i = l !! Z.to_nat (Z.of_nat (length l) + i)
     ∧ is_Some (py_index l i))
  ∧ (i < - Z.of_nat (length l) ∨ Z.of_nat (length l) <= i → py_index l i = None).
Proof.
  unfold py_index, py_position. split; [|split].
  - intros Hi. by rewrite decide_True.
  - intros Hi. rewrite decide_False by lia. rewrite decide_True by done.
    split; [done|]. apply lookup_lt_is_Some. lia.
  - intros Hi. rewrite !decide_False by lia. done.
Qed.

Lemma range_from_three a : range_from (a - 1) (a + 2) = [a - 1; a; a + 1].
Proof.
  unfold range_from. replace (Z.to_nat (a + 2 - (a - 1))) with 3%nat by lia.
  simpl. f_equal; [lia|]. f_equal; [lia|]. f_equal. lia.
Qed.

(** ** The game: the board and its mines *)

Lemma length_range n : length (range n) = Z.to_nat n.
Proof. unfold range. by rewrite length_fmap, length_seq. Qed.

Lemma board_rows g i :
  well_formed g → 0 <= i < Minesweeper.height g →
  ∃ row, Minesweeper.board g !! Z.to_nat i = Some row
         ∧ length row = Z.to_nat (Minesweeper.width g)
         ∧ ∀ j, 0 <= j < Minesweeper.width g →
                row !! Z.to_nat j
                = Some (bool_decide ((i, j) ∈ Minesweeper.mines g)).
Proof.
  intros (Hlen & Hrows & _ & Hat) Hi.
  destruct (lookup_lt_is_Some_2 (Minesweeper.board g) (Z.to_nat i)) as [row Hrow];
    [lia|].
  exists row. split; [done|].
  rewrite Forall_forall in Hrows.
  assert (length row = Z.to_nat (Minesweeper.width g)) as Hw.
  { apply Hrows. by eapply list_elem_of_lookup_2. }
  split; [done|]. intros j Hj. specialize (Hat i j Hi Hj).
  unfold Minesweeper.board_at in Hat.
  rewrite py_index_in_range, Hrow in Hat by lia.
  by rewrite py_index_in_range in Hat by lia.
Qed.

Lemma empty_board_well_formed h w found :
  well_formed (Minesweeper.mk h w ∅ (Minesweeper.empty_board h w) found).
Proof.
  unfold well_formed, Minesweeper.empty_board. simpl.
  split; [by rewrite length_fmap, length_range|]. split; [|split].
  - apply Forall_fmap, Forall_forall. intros x _. simpl.
    by rewrite length_fmap, length_range.
  - intros i j Hin. by apply not_elem_of_empty in Hin.
  - intros i j Hi Hj. unfold Minesweeper.board_at. simpl.
    rewrite py_index_in_range by (rewrite length_fmap, length_range; lia).
    rewrite list_lookup_fmap.
    destruct (lookup_lt_is_Some_2 (range h) (Z.to_nat i)) as [x ->];
      [rewrite length_range; lia|]. simpl.
    rewrite py_index_in_range by (rewrite length_fmap, length_range; lia).
    rewrite list_lookup_fmap.
    destruct (lookup_lt_is_Some_2 (range w) (Z.to_nat j)) as [y ->];
      [rewrite length_range; lia|]. simpl.
    by rewrite bool_decide_eq_false_2 by apply not_elem_of_empty.
Qed.

Lemma board_store_well_formed g i j :
  well_formed g →
  0 <= i < Minesweeper.height g → 0 <= j < Minesweeper.width g →
  ∃ b, Minesweeper.board_store g i j = Some b
       ∧ well_formed
           (Minesweeper.mk (Minesweeper.height g) (Minesweeper.width g)
              ({[(i, j)]} ∪ Minesweeper.mines g) b (Minesweeper.mines_found g)).
Proof.
  intros Hwf Hi Hj.
  destruct (board_rows g i Hwf Hi) as (row & Hrow & Hlen & _).
  pose proof Hwf as (Hh & Hrows & Hin & _).
  unfold Minesweeper.board_store.
  rewrite py_position_in_range, Hrow, py_position_in_range by lia.
  eexists. split; [done|].
  unfold well_formed. simpl. split; [by rewrite length_insert|]. split; [|split].
  - apply Forall_insert; [done|]. by rewrite length_insert.
  - intros i' j' [Heq|Hm]%elem_of_union; [|by apply Hin].
    apply elem_of_singleton in Heq. by simplify_eq.
  - intros i' j' Hi' Hj'. unfold Minesweeper.board_at. simpl.
    rewrite py_index_in_range by (rewrite length_insert; lia).
    destruct (board_rows g i' Hwf Hi') as (row' & Hrow' & Hlen' & Hat').
    destruct (decide (Z.to_nat i = Z.to_nat i')) as [Heq|Hne].
    + assert (i' = i) as -> by lia. simplify_eq.
      rewrite list_lookup_insert_eq by lia.
      rewrite py_index_in_range by (rewrite length_insert; lia).
      destruct (decide (Z.to_nat j = Z.to_nat j')) as [Heq'|Hne'].
      * assert (j' = j) as -> by lia.
        rewrite list_lookup_insert_eq by lia.
        by rewrite bool_decide_eq_true_2 by set_solver.
      * rewrite list_lookup_insert_ne by done. rewrite Hat' by done.
        f_equal. apply bool_decide_ext.
        rewrite elem_of_union, elem_of_singleton.
        split; [by right|]. intros [?|?]; [simplify_eq; lia|done].
    + rewrite list_lookup_insert_ne, Hrow' by done.
      rewrite py_index_in_range by lia. rewrite Hat' by done.
      f_equal. apply bool_decide_ext.
      rewrite elem_of_union, elem_of_singleton.
      split; [by right|]. intros [?|?]; [simplify_eq; lia|done].
Qed.

Lemma mines_size_bound g :
  well_formed g →
  (size (Minesweeper.mines g)
   ≤ Z.to_nat (Minesweeper.height g) * Z.to_nat (Minesweeper.width g))%nat.
Proof.
  intros (_ & _ & Hin & _).
  etrans; [|etrans; [apply (size_list_to_set_le
    (list_prod (range (Minesweeper.height g)) (range (Minesweeper.width g))))|]].
  - apply subseteq_size. intros [i j] Hij. apply elem_of_list_to_set.
    apply list_elem_of_In, in_prod_iff. rewrite <- !list_elem_of_In.
    rewrite !elem_of_range. by apply Hin.
  - by rewrite length_prod, !length_range.
Qed.

Section PlaceMines.
Variable randrange : nat → Z → Z.
Hypothesis randrange_spec : ∀ draw n, 0 < n → 0 <= randrange draw n < n.

Lemma place_mines_returns fuel g m draw g' :
  well_formed g →
  Minesweeper.place_mines randrange fuel g m draw = Some (Return g') →
  well_formed g'
  ∧ Z.of_nat (size (Minesweeper.mines g')) = m
  ∧ Minesweeper.height g' = Minesweeper.height g
  ∧ Minesweeper.width g' = Minesweeper.width g
  ∧ Minesweeper.mines g ⊆ Minesweeper.mines g'
  ∧ Minesweeper.mines_found g' = Minesweeper.mines_found g.
Proof.
  revert g draw. induction fuel as [|fuel IH]; intros g draw Hwf; simpl; [done|].
  case_decide as Hsize.
  2:{ intros [= <-]. done. }
  unfold py_randrange.
  destruct (decide (0 < Minesweeper.height g)) as [Hh|]; [|done].
  destruct (decide (0 < Minesweeper.width g)) as [Hw|]; [|done].
  pose proof (randrange_spec draw _ Hh) as Hi.
  pose proof (randrange_spec (S draw) _ Hw) as Hj.
  destruct (Minesweeper.board_at g _ _) as [[|]|]; [| |done].
  - by apply IH.
  - destruct (board_store_well_formed g _ _ Hwf Hi Hj) as (b & -> & Hwf').
    intros Hrun. apply IH in Hrun as (? & ? & ? & ? & Hsub & ?); [|done].
    simpl in *. split; [done|]. split; [done|]. split; [done|].
    split; [done|]. split; [|done].
    etrans; [apply union_subseteq_r|exact Hsub].
Qed.

Lemma place_mines_no_raise fuel g m draw e :
  well_formed g →
  0 < Minesweeper.height g → 0 < Minesweeper.width g →
  Minesweeper.place_mines randrange fuel g m draw ≠ Some (Raise e).
Proof.
  revert g draw. induction fuel as [|fuel IH]; intros g draw Hwf Hh Hw; simpl; [done|].
  case_decide as Hsize; [|done].
  unfold py_randrange. rewrite !decide_True by done.
  pose proof (randrange_spec draw _ Hh) as Hi.
  pose proof (randrange_spec (S draw) _ Hw) as Hj.
  destruct Hwf as (H1 & H2 & H3 & Hat). rewrite (Hat _ _ Hi Hj).
  assert (well_formed g) as Hwf by done.
  destruct (bool_decide _).
  - by apply IH.
  - destruct (board_store_well_formed g _ _ Hwf Hi Hj) as (b & -> & Hwf').
    by apply IH.
Qed.

Lemma place_mines_never_ends fuel g m draw :
  well_formed g →
  0 < Minesweeper.height g → 0 < Minesweeper.width g →
  m < 0 ∨ Minesweeper.height g * Minesweeper.width g < m →
  Minesweeper.place_mines randrange fuel g m draw = None.
Proof.
  revert g draw. induction fuel as [|fuel IH]; intros g draw Hwf Hh Hw Hm; simpl; [done|].
  pose proof (mines_size_bound g Hwf) as Hbound.
  rewrite decide_True by nia.
  unfold py_randrange. rewrite !decide_True by done.
  pose proof (randrange_spec draw _ Hh) as Hi.
  pose proof (randrange_spec (S draw) _ Hw) as Hj.
  pose proof Hwf as (_ & _ & _ & Hat). rewrite (Hat _ _ Hi Hj).
  destruct (bool_decide _).
  - by apply IH.
  - destruct (board_store_well_formed g _ _ Hwf Hi Hj) as (b & -> & Hwf').
    by apply IH.
Qed.

End PlaceMines.

(** ** The game: counting the mines around a cell *)

Lemma for_each_app {S A : Type} (body : S → A → option S) l k s :
  for_each body s (l ++ k)
  = match for_each body s l with
    | Some s' => for_each body s' k
    | None => None
    end.
Proof.
  revert s. induction l as [|x l IH]; intros s; simpl; [done|].
  destruct (body s x); [apply IH|done].
Qed.

Lemma for_each_fmap {S A B : Type} (body : S → B → option S) (f : A → B) l s :
  for_each body s (f <$> l) = for_each (λ s x, body s (f x)) s l.
Proof.
  revert s. induction l as [|x l IH]; intros s; simpl; [done|].
  destruct (body s (f x)); [apply IH|done].
Qed.

Lemma for_each_ext {S A : Type} (body1 body2 : S → A → option S) l s :
  (∀ s x, x ∈ l → body1 s x = body2 s x) →
  for_each body1 s l = for_each body2 s l.
Proof.
  revert s. induction l as [|x l IH]; intros s Hext; simpl; [done|].
  rewrite Hext by (by left). destruct (body2 s x); [|done].
  apply IH. intros ???. apply Hext. by right.
Qed.

(** Two nested loops are one loop over the pairs. *)
Lemma for_each_prod {S A B : Type} (body : A → S → B → option S)
    (rows : list A) (cols : list B) s :
  for_each (λ s i, for_each (body i) s cols) s rows
  = for_each (λ s p, body p.1 s p.2) s (list_prod rows cols).
Proof.
  revert s. induction rows as [|i rows IH]; intros s; simpl; [done|].
  rewrite for_each_app.
  change (map (λ y, (i, y)) cols) with ((λ y, (i, y)) <$> cols).
  rewrite for_each_fmap. simpl.
  destruct (for_each (body i) s cols); [apply IH|done].
Qed.

Lemma for_each_counting `{Countable K} (M : gset K) (l : list K) (count : Z) :
  for_each (λ count p, Some (count + if decide (p ∈ M) then 1 else 0)) count l
  = Some (count + Z.of_nat (length (filter (λ p, p ∈ M) l))).
Proof.
  revert count. induction l as [|p l IH]; intros count; simpl.
  - f_equal. lia.
  - rewrite IH, filter_cons. destruct (decide (p ∈ M)); simpl; f_equal; lia.
Qed.

Lemma count_cell_well_formed g cell p count :
  well_formed g →
  Minesweeper.count_cell g cell p.1 count p.2
  = Some (count + if decide (p ∈ Minesweeper.mines g ∖ {[cell]}) then 1 else 0).
Proof.
  intros (_ & _ & Hin & Hat). destruct p as [i j]. simpl.
  unfold Minesweeper.count_cell.
  destruct (decide ((i, j) = cell)) as [->|Hne].
  { rewrite decide_False by set_solver. f_equal. lia. }
  case_decide as Hb.
  - destruct Hb as [Hi Hj]. rewrite (Hat i j Hi Hj).
    case_bool_decide as Hm.
    + by rewrite decide_True by set_solver.
    + rewrite decide_False by set_solver. f_equal. lia.
  - rewrite decide_False; [f_equal; lia|].
    intros [Hm _]%elem_of_difference. apply Hin in Hm. tauto.
Qed.

(** The nine positions that [nearby_mines] visits. *)
Lemma around_NoDup (r c : Z) :
  NoDup (list_prod [r - 1; r; r + 1] [c - 1; c; c + 1]).
Proof.
  simpl.
  repeat (apply NoDup_cons; split;
    [rewrite ?elem_of_cons, elem_of_nil; intros Hin;
     repeat (destruct Hin as [Hin|Hin]); try done; simplify_eq; lia|]).
  apply NoDup_nil_2.
Qed.

Lemma elem_of_around (r c : Z) p :
  p ∈ list_prod [r - 1; r; r + 1] [c - 1; c; c + 1]
  ↔ Z.abs (r - p.1) <= 1 ∧ Z.abs (c - p.2) <= 1.
Proof.
  rewrite list_elem_of_In, (surjective_pairing p), in_prod_iff.
  rewrite <- !list_elem_of_In, !elem_of_cons, !elem_of_nil. simpl. lia.
Qed.

Lemma near_mines_around (r c : Z) (M : gset (Z * Z)) :
  filter (near (r, c)) M
  = list_to_set (list_prod [r - 1; r; r + 1] [c - 1; c; c + 1])
    ∩ (M ∖ {[(r, c)]}).
Proof.
  apply set_eq. intros p.
  rewrite elem_of_filter, elem_of_intersection, elem_of_list_to_set,
    elem_of_around, elem_of_difference, elem_of_singleton.
  unfold near. simpl. tauto.
Qed.

Lemma nearby_mines_value g cell :
  well_formed g →
  Minesweeper.nearby_mines g cell
  = Some (Z.of_nat (size (filter (near cell) (Minesweeper.mines g)))).
Proof.
  intros Hwf. destruct cell as [r c].
  unfold Minesweeper.nearby_mines. simpl. rewrite !range_from_three.
  rewrite for_each_prod.
  rewrite (for_each_ext _
    (λ count p, Some (count + if decide (p ∈ Minesweeper.mines g ∖ {[(r, c)]})
                              then 1 else 0))).
  2:{ intros count p _. by apply count_cell_well_formed. }
  rewrite for_each_counting, length_filter_members by apply around_NoDup.
  by rewrite near_mines_around.
Qed.

Lemma near_mines_at_most_eight (cell : Z * Z) (M : gset (Z * Z)) :
  (size (filter (near cell) M) ≤ 8)%nat.
Proof.
  destruct cell as [r c]. rewrite near_mines_around.
  etrans; [|apply (size_list_to_set_le
    [(r - 1, c - 1); (r - 1, c); (r - 1, c + 1); (r, c - 1); (r, c + 1);
     (r + 1, c - 1); (r + 1, c); (r + 1, c + 1)])].
  apply subseteq_size. intros [i j].
  rewrite elem_of_intersection, elem_of_list_to_set, elem_of_around,
    elem_of_difference, elem_of_singleton, elem_of_list_to_set. simpl.
  intros ((Hi & Hj) & _ & Hne).
  assert (i = r - 1 ∨ i = r ∨ i = r + 1) as Hrows by lia.
  assert (j = c - 1 ∨ j = c ∨ j = c + 1) as Hcols by lia.
  destruct Hrows as [->|[->| ->]], Hcols as [->|[->| ->]];
    try done; set_solver.
Qed.

(** On a game as [__init__] builds it, [nearby_mines] returns the number
    of mines within one row and one column of the cell, the cell left
    out, for every cell, on the board or off it; the number is at most
    8. *)
Theorem nearby_mines_counts g cell :
  well_formed g →
  Minesweeper.nearby_mines g cell
  = Some (Z.of_nat (size (filter (near cell) (Minesweeper.mines g))))
  ∧ (size (filter (near cell) (Minesweeper.mines g)) ≤ 8)%nat.
Proof.
  intros Hwf. split.
  - by apply nearby_mines_value.
  - apply near_mines_at_most_eight.
Qed.

(** [is_mine] reads the board at the cell: on the board it tells whether
    the cell is in [mines]; a row or column index that is negative is
    counted from the end, so that [(i - height, j)] and [(i, j - width)]
    read the square [(i, j)]; any other index raises [IndexError]. *)
Theorem is_mine_spec g i j :
  well_formed g →
  0 <= i < Minesweeper.height g → 0 <= j < Minesweeper.width g →
  Minesweeper.is_mine g (i, j)
  = Some (bool_decide ((i, j) ∈ Minesweeper.mines g))
  ∧ Minesweeper.is_mine g (i - Minesweeper.height g, j) = Minesweeper.is_mine g (i, j)
  ∧ Minesweeper.is_mine g (i, j - Minesweeper.width g) = Minesweeper.is_mine g (i, j)
  ∧ (∀ i', i' < - Minesweeper.height g ∨ Minesweeper.height g <= i' →
           Minesweeper.is_mine g (i', j) = None)
  ∧ (∀ j', j' < - Minesweeper.width g ∨ Minesweeper.width g <= j' →
           Minesweeper.is_mine g (i, j') = None).
Proof.
  intros Hwf Hi Hj.
  destruct (board_rows g i Hwf Hi) as (row & Hrow & Hlen & Hat).
  pose proof Hwf as (Hh & _ & _ & Hboard).
  unfold Minesweeper.is_mine, Minesweeper.board_at. simpl.
  assert (py_index (Minesweeper.board g) i = Some row) as Hrow'.
  { by rewrite py_index_in_range by lia. }
  split; [|split; [|split; [|split]]].
  - rewrite Hrow'. rewrite py_index_in_range by lia. by apply Hat.
  - destruct (py_index_spec (Minesweeper.board g) (i - Minesweeper.height g))
      as (_ & Hneg & _).
    destruct Hneg as [-> _]; [lia|]. rewrite Hrow'.
    replace (Z.to_nat (Z.of_nat (length (Minesweeper.board g))
                       + (i - Minesweeper.height g))) with (Z.to_nat i) by lia.
    by rewrite Hrow.
  - rewrite Hrow'.
    destruct (py_index_spec row (j - Minesweeper.width g)) as (_ & Hneg & _).
    destruct Hneg as [-> _]; [lia|]. rewrite py_index_in_range by lia.
    by replace (Z.to_nat (Z.of_nat (length row) + (j - Minesweeper.width g)))
      with (Z.to_nat j) by lia.
  - intros i' Hi'.
    destruct (py_index_spec (Minesweeper.board g) i') as (_ & _ & Hout).
    by rewrite Hout by lia.
  - intros j' Hj'. rewrite Hrow'.
    destruct (py_index_spec row j') as (_ & _ & Hout).
    by rewrite Hout by lia.
Qed.

(** ** The game and the player *)

#[global] Instance cell_elem_inj : Inj (=) (=) cell_elem.
Proof. intros [??] [??]. unfold cell_elem. simpl. by intros [= -> ->]. Qed.

Lemma size_set_map_cells (X : gset (Z * Z)) :
  size (set_map cell_elem X : gset elem) = size X.
Proof.
  unfold set_map. rewrite size_list_to_set.
  - by rewrite length_fmap.
  - apply NoDup_fmap_2; [apply _|apply NoDup_elements].
Qed.

Lemma neighbours_that_are_mines st g cell :
  well_formed g →
  height st = Minesweeper.height g → width st = Minesweeper.width g →
  return_neighbors st cell ∩ mine_elems g
  = set_map cell_elem (filter (near cell) (Minesweeper.mines g)).
Proof.
  intros (_ & _ & Hin & _) Hh Hw. apply set_eq. intros e.
  unfold mine_elems.
  rewrite elem_of_intersection, !elem_of_map, elem_of_return_neighbors.
  split.
  - intros [Hn ([i j] & -> & Hm)]. exists (i, j). split; [done|].
    apply elem_of_filter. split; [|done].
    destruct Hn as [?|[?|(rows & cols & Heq & _ & _ & ? & ? & ?)]]; [done..|].
    unfold cell_elem in Heq. simpl in Heq. simplify_eq. done.
  - intros ([i j] & -> & Hf). apply elem_of_filter in Hf as [(Hr & Hc & Hne) Hm].
    split; [|by exists (i, j)]. right; right. exists i, j.
    split; [done|]. unfold adjacent. rewrite Hh, Hw. simpl in *.
    apply Hin in Hm. tauto.
Qed.

(** The count that the game gives for a cell makes a true sentence of
    all that [return_neighbors] returns for a player on a board of the
    same size, the two coordinates included: these are not mines. *)
Theorem nearby_mines_true_of_neighbors st g cell :
  well_formed g →
  height st = Minesweeper.height g → width st = Minesweeper.width g →
  ∃ n, Minesweeper.nearby_mines g cell = Some n
       ∧ 0 <= n <= 8
       ∧ true_of (mine_elems g) (Sentence.mk (return_neighbors st cell) n).
Proof.
  intros Hwf Hh Hw. pose proof (nearby_mines_value g cell Hwf) as Hn.
  pose proof (near_mines_at_most_eight cell (Minesweeper.mines g)) as Hle.
  eexists. split; [exact Hn|]. split; [lia|].
  unfold true_of. simpl.
  by rewrite (neighbours_that_are_mines st g cell Hwf Hh Hw), size_set_map_cells.
Qed.

(** With a true count for a cell that is not a mine, the state in which
    [add_knowledge] has stored its sentence is sound exactly when no
    value of [return_neighbors] is a known mine: the count is lowered for
    each of those, and they stay in the sentence. *)
Theorem store_sentence_sound_iff set_iter M st cell count :
  (∀ X, set_iter X ≡ₚ elements X) →
  sound M st →
  cell_elem cell ∉ M →
  true_of M (Sentence.mk (return_neighbors st cell) count) →
  sound M (store_sentence set_iter st cell count)
  ↔ return_neighbors st cell ## mines st.
Proof.
  intros Hperm (Hm & Hs & Hk) Hcell Htrue. unfold sound.
  destruct (store_sentence_sets set_iter st cell count) as (-> & -> & _).
  rewrite (store_sentence_knowledge set_iter st cell count Hperm).
  rewrite Forall_app, Forall_singleton, Forall_fmap.
  unfold true_of in *. simpl in *.
  assert (Forall (true_of M ∘ (λ s, Sentence.mark_safe s (cell_elem cell)))
                 (knowledge st)) as Hold.
  { eapply Forall_impl; [exact Hk|]. intros s Hs'. simpl.
    by apply sentence_mark_safe_true. }
  split.
  - intros (_ & _ & _ & Hnew).
    assert (size (return_neighbors st cell ∩ mines st) = 0%nat) as H0 by lia.
    apply size_empty_iff in H0. set_solver.
  - intros Hdisj. split; [done|]. split; [set_solver|]. split; [done|].
    replace (return_neighbors st cell ∩ mines st) with (∅ : gset elem)
      by set_solver.
    rewrite size_empty. lia.
Qed.

(** ** The game: [__init__] *)

(** When [__init__] returns, the game has the sizes it was given and as
    many mines as were asked for, all on the board, whose squares are
    [True] exactly at the mines. *)
Theorem init_returns_well_formed randrange height width mines fuel draw g :
  (∀ draw n, 0 < n → 0 <= randrange draw n < n) →
  Minesweeper.init randrange height width mines fuel draw = Some (Return g) →
  well_formed g
  ∧ Z.of_nat (size (Minesweeper.mines g)) = mines
  ∧ Minesweeper.height g = height ∧ Minesweeper.width g = width
  ∧ Minesweeper.mines_found g = ∅.
Proof.
  intros Hspec Hrun. unfold Minesweeper.init in Hrun.
  apply (place_mines_returns randrange Hspec) in Hrun
    as (? & ? & ? & ? & _ & ?); [done|].
  apply empty_board_well_formed.
Qed.

(** Asked for more mines than the board has cells, or for a negative
    number of them, [__init__] neither returns nor raises: the loop has
    not ended after any number of turns. *)
Theorem init_never_ends randrange height width mines fuel draw :
  (∀ draw n, 0 < n → 0 <= randrange draw n < n) →
  0 < height → 0 < width →
  mines < 0 ∨ height * width < mines →
  Minesweeper.init randrange height width mines fuel draw = None.
Proof.
  intros Hspec Hh Hw Hm. unfold Minesweeper.init.
  apply (place_mines_never_ends randrange Hspec); [|done..].
  apply empty_board_well_formed.
Qed.

(** With no mine asked for, [__init__] returns the empty board at once,
    whatever the sizes; with mines asked for and a side that is not
    positive, a call of [randrange] raises [ValueError] in the first turn
    of the loop; and on a board with positive sides nothing is ever
    raised. *)
Theorem init_edge_cases randrange height width mines fuel draw :
  (mines = 0 →
   Minesweeper.init randrange height width mines (S fuel) draw
   = Some (Return (Minesweeper.mk height width ∅
                     (Minesweeper.empty_board height width) ∅)))
  ∧ (mines ≠ 0 → height <= 0 ∨ width <= 0 →
     Minesweeper.init randrange height width mines (S fuel) draw
     = Some (Raise ValueError))
  ∧ ((∀ draw n, 0 < n → 0 <= randrange draw n < n) →
     0 < height → 0 < width →
     ∀ e, Minesweeper.init randrange height width mines fuel draw
          ≠ Some (Raise e)).
Proof.
  unfold Minesweeper.init. split; [|split].
  - intros ->. simpl. rewrite decide_False; [done|].
    intros Hne. by apply Hne.
  - intros Hm Hside. simpl. rewrite decide_True.
    2:{ intros H0. apply Hm. by rewrite <- H0. }
    unfold py_randrange.
    destruct (decide (0 < height)); [|done].
    by rewrite decide_False by lia.
  - intros Hspec Hh Hw e.
    apply (place_mines_no_raise randrange Hspec); [|done..].
    apply empty_board_well_formed.
Qed.

(** ** Instances of the properties *)

Lemma counting_randrange_spec draw n :
  0 < n → 0 <= counting_randrange draw n < n.
Proof. intros Hn. unfold counting_randrange. apply Z.mod_pos_bound. lia. Qed.

Lemma game_example_init :
  Minesweeper.init counting_randrange 3 3 2 5 0 = Some (Return game_example).
Proof. vm_compute. reflexivity. Qed.

Lemma game_example_well_formed : well_formed game_example.
Proof.
  pose proof game_example_init as Hrun. unfold Minesweeper.init in Hrun.
  apply (place_mines_returns counting_randrange counting_randrange_spec) in Hrun
    as [Hwf _]; [done|].
  apply empty_board_well_formed.
Qed.

Lemma sound_ABC : sound mines_ABC kb_all_mines.
Proof. apply (bool_decide_unpack _). vm_compute. exact I. Qed.

Lemma known_cells_sound_witness :
  (∀ X, Sentence.known_mines sentence_AB = Some X → X ⊆ mines_ABC)
  ∧ (∀ X, Sentence.known_safes sentence_AB = Some X → X ## mines_ABC).
Proof. apply (known_cells_sound mines_ABC sentence_AB). vm_compute. reflexivity. Defined.

Lemma sentence_marks_keep_truth_witness :
  (cell_A ∈ mines_ABC → true_of mines_ABC (Sentence.mark_mine sentence_AB cell_A))
  ∧ (cell_A ∉ mines_ABC → true_of mines_ABC (Sentence.mark_safe sentence_AB cell_A)).
Proof.
  apply (sentence_marks_keep_truth mines_ABC sentence_AB cell_A).
  vm_compute. reflexivity.
Defined.

Lemma marks_keep_sound_witness :
  (cell_A ∈ mines_ABC → sound mines_ABC (mark_mine kb_all_mines cell_A))
  ∧ (cell_A ∉ mines_ABC → sound mines_ABC (mark_safe kb_all_mines cell_A)).
Proof. apply (marks_keep_sound mines_ABC kb_all_mines cell_A), sound_ABC. Defined.

Lemma check_knowledge_settles_witness :
  ∃ st', check_knowledge elements kb_all_mines = Some st'
         ∧ Forall (λ s, Sentence.cells s ≠ ∅
                        ∧ Sentence.count s ≠ 0
                        ∧ Sentence.count s ≠ Z.of_nat (size (Sentence.cells s)))
                  (knowledge st').
Proof. apply (check_knowledge_settles elements), elements_perm. Defined.

Lemma check_knowledge_draws_conclusions_witness :
  ∃ st', check_knowledge elements kb_all_mines = Some st'
         ∧ ∀ s, s ∈ knowledge kb_all_mines →
             (Sentence.count s = Z.of_nat (size (Sentence.cells s)) →
              Sentence.cells s ⊆ mines st')
             ∧ (Sentence.count s = 0 → Sentence.cells s ⊆ safes st').
Proof. apply (check_knowledge_draws_conclusions elements), elements_perm. Defined.

Lemma check_knowledge_keeps_sound_witness :
  ∃ st', check_knowledge elements kb_all_mines = Some st' ∧ sound mines_ABC st'.
Proof.
  apply (check_knowledge_keeps_sound elements mines_ABC kb_all_mines);
    [apply elements_perm|apply sound_ABC].
Defined.

Lemma check_knowledge_adds_nothing_witness :
  ∃ st', check_knowledge elements kb_all_mines = Some st'
         ∧ height st' = height kb_all_mines ∧ width st' = width kb_all_mines
         ∧ moves_made st' = moves_made kb_all_mines
         ∧ (length (knowledge st') ≤ length (knowledge kb_all_mines))%nat
         ∧ pending st' ⊆ pending kb_all_mines.
Proof. apply (check_knowledge_adds_nothing elements), elements_perm. Defined.

Lemma nearby_mines_counts_witness :
  Minesweeper.nearby_mines game_example (1, 1)
  = Some (Z.of_nat (size (filter (near (1, 1)) (Minesweeper.mines game_example))))
  ∧ (size (filter (near (1%Z, 1%Z)) (Minesweeper.mines game_example)) ≤ 8)%nat.
Proof. apply (nearby_mines_counts game_example (1, 1)), game_example_well_formed. Defined.

Lemma is_mine_spec_witness :
  Minesweeper.is_mine game_example (2, 0)
  = Some (bool_decide ((2, 0) ∈ Minesweeper.mines game_example))
  ∧ Minesweeper.is_mine game_example (2 - Minesweeper.height game_example, 0)
    = Minesweeper.is_mine game_example (2, 0)
  ∧ Minesweeper.is_mine game_example (2, 0 - Minesweeper.width game_example)
    = Minesweeper.is_mine game_example (2, 0)
  ∧ (∀ i', i' < - Minesweeper.height game_example
           ∨ Minesweeper.height game_example <= i' →
           Minesweeper.is_mine game_example (i', 0) = None)
  ∧ (∀ j', j' < - Minesweeper.width game_example
           ∨ Minesweeper.width game_example <= j' →
           Minesweeper.is_mine game_example (2, j') = None).
Proof.
  apply (is_mine_spec game_example 2 0);
    [apply game_example_well_formed|done|done].
Defined.

Lemma nearby_mines_true_of_neighbors_witness :
  ∃ n, Minesweeper.nearby_mines game_example (1, 1) = Some n
       ∧ 0 <= n <= 8
       ∧ true_of (mine_elems game_example)
                 (Sentence.mk (return_neighbors (init 3 3) (1, 1)) n).
Proof.
  apply (nearby_mines_true_of_neighbors (init 3 3) game_example (1, 1));
    [apply game_example_well_formed|reflexivity|reflexivity].
Defined.

Lemma store_sentence_sound_iff_witness :
  (sound (mine_elems game_example)
         (store_sentence elements kb_mine_known (1, 1) 2)
   ↔ return_neighbors kb_mine_known (1, 1) ## mines kb_mine_known)
  ∧ ¬ sound (mine_elems game_example)
            (store_sentence elements kb_mine_known (1, 1) 2).
Proof.
  assert (sound (mine_elems game_example)
                (store_sentence elements kb_mine_known (1, 1) 2)
          ↔ return_neighbors kb_mine_known (1, 1) ## mines kb_mine_known)
    as Hiff.
  { apply (store_sentence_sound_iff elements (mine_elems game_example)
             kb_mine_known (1, 1) 2).
    - apply elements_perm.
    - apply (bool_decide_unpack _). vm_compute. exact I.
    - apply (bool_decide_unpack _). vm_compute. exact I.
    - vm_compute. reflexivity. }
  split; [exact Hiff|]. intros Hsound. apply Hiff in Hsound.
  apply (Hsound cell_B).
  - apply (bool_decide_unpack _). vm_compute. exact I.
  - apply (bool_decide_unpack _). vm_compute. exact I.
Defined.

Lemma init_returns_well_formed_witness :
  well_formed game_example
  ∧ Z.of_nat (size (Minesweeper.mines game_example)) = 2
  ∧ Minesweeper.height game_example = 3 ∧ Minesweeper.width game_example = 3
  ∧ Minesweeper.mines_found game_example = ∅.
Proof.
  apply (init_returns_well_formed counting_randrange 3 3 2 5 0 game_example).
  - apply counting_randrange_spec.
  - apply game_example_init.
Defined.

Lemma init_never_ends_witness :
  Minesweeper.init counting_randrange 2 2 5 100 0 = None.
Proof.
  apply (init_never_ends counting_randrange 2 2 5 100 0);
    [apply counting_randrange_spec|done|done|right; done].
Defined.
